(** * Timeline editing engine of the clip editor (frontend/src/app/create/page.tsx)

  A shallow embedding of the [CreatePage] component: the clip records, the
  drag handlers installed by [handleTimelineMouseDown], the polling effect,
  [handleFinalize], the caption callbacks and [onLoadedMetadata].

  Conventions of the embedding.
  - A JavaScript [number] holding a time, a pixel coordinate or a width is
    a rational ([Q]); [Math.max]/[Math.min] are [Qmax]/[Qmin].  The
    doubles are the rationals fixed by [JS.double], which rounds to the
    nearest number with a 53-bit significand (ties to even, gradual
    underflow).  The sums and differences from which [handleMouseMove]
    builds the new boundaries of a clip, and the products and quotients of
    [formatTime] and [formatDuration], are the rounded ones ([JS.add],
    [JS.sub], [JS.mul], [JS.div]): what is stated of them depends on the
    rounding.  The position requested by the pointer and the percentages
    of the rendering are left exact: they are compared, selected or drawn,
    and what is stated of them holds of the doubles up to a rounding error
    far below a pixel.  [NaN] and the infinities are not represented, so a
    division by a zero timeline width and a result beyond the largest
    double have no counterpart here.
  - React state is a record [State]; a handler reads the state of the
    render that created it and returns the state after its batched
    setter calls.  A closure registered on [document] is a record of the
    values it captured.
  - An asynchronous call is split at its [await]: the part before, and the
    continuation applied to the outcome of the call. *)

From Stdlib Require Import QArith Qminmax Qround Qpower Lqa String Ascii DecimalString.
From stdpp Require Import base list gmap.

Open Scope Q_scope.

(** ** JavaScript helpers *)

Module JS.

(** [Math.max(x, ...xs)] and [Math.min(x, ...xs)]. *)
Definition Math_max (x : Q) (xs : list Q) : Q := fold_left Qmax xs x.
Definition Math_min (x : Q) (xs : list Q) : Q := fold_left Qmin xs x.

(** [arr.filter((x, i) => p x i)]: the callback also receives the index. *)
Fixpoint filter_from {A} (p : A -> nat -> bool) (i : nat) (l : list A) : list A :=
  match l with
  | [] => []
  | x :: r => if p x i then x :: filter_from p (S i) r else filter_from p (S i) r
  end.

Definition Array_filter {A} (p : A -> nat -> bool) (l : list A) : list A :=
  filter_from p 0 l.

(** [a || b] on strings: the empty string and [undefined] are falsy. *)
Definition or_string (a : option string) (b : string) : string :=
  match a with
  | Some s => if String.eqb s "" then b else s
  | None => b
  end.

(** [a || 0] on numbers: [undefined] and [0] both give [0]. *)
Definition or_zero (a : option Q) : Q :=
  match a with
  | Some q => q
  | None => 0
  end.

(** [Math.floor], [Math.round] (ties go up) and the remainder [x % y], which
    takes the sign of the dividend.  On doubles all three are exact. *)
Definition Math_floor (x : Q) : Z := Qfloor x.
Definition Math_round (x : Q) : Z := Qfloor (x + (1 # 2)).
Definition trunc (x : Q) : Z := if Qle_bool 0 x then Qfloor x else Qceiling x.
Definition rem (x y : Q) : Q := x - y * inject_Z (trunc (x / y)).

(** *** Doubles *)

(** [ilog2 x], for [x > 0], is the integer [e] with [2^e <= x < 2^(e+1)]. *)
Definition ilog2 (x : Q) : Z :=
  let e := (Z.log2 (Qnum x) - Z.log2 (Zpos (Qden x)))%Z in
  if Qle_bool (2 ^ e) x then e else (e - 1)%Z.

(** The nearest integer, the even one on a tie. *)
Definition roundHalfEven (x : Q) : Z :=
  let f := Qfloor x in
  match Qcompare (x - inject_Z f) (1 # 2) with
  | Lt => f
  | Gt => (f + 1)%Z
  | Eq => if Z.even f then f else (f + 1)%Z
  end.

(** The double nearest to [x > 0]: a multiple of [2^e], where [e] leaves
    53 bits to the significand and is at least -1074. *)
Definition nearest (x : Q) : Q :=
  let e := Z.max (ilog2 x - 52) (-1074) in
  inject_Z (roundHalfEven (x / 2 ^ e)) * 2 ^ e.

Definition double (x : Q) : Q :=
  match Qnum x with
  | Z0 => 0
  | Zpos _ => Qred (nearest x)
  | Zneg _ => Qred (- nearest (- x))
  end.

Definition isDouble (x : Q) : Prop := double x == x.

(** [x + y], [x - y], [x * y] and [x / y] on doubles. *)
Definition add (x y : Q) : Q := double (x + y).
Definition sub (x y : Q) : Q := double (x - y).
Definition mul (x y : Q) : Q := double (x * y).
Definition div (x y : Q) : Q := double (x / y).

(** *** Numbers as text *)

(** The decimal numeral of an integer. *)
Definition decimal (n : Z) : string := NilZero.string_of_int (Z.to_int n).

Definition digits (n : Z) : nat := String.length (decimal n).

(** [v.toString()] of an integral number.  Below [2^53] it is the decimal
    numeral.  From there on it is the decimal [s * 10^j] with the fewest
    digits [s] that reads back as the double [v] (of two such, the one
    nearer to [v], and the even [s] on a tie), written out in full up to 21
    digits and in exponential notation beyond. *)
Definition readsAs (v c : Z) : bool := Qeq_bool (double (inject_Z c)) (inject_Z v).

Fixpoint shortest (v : Z) (j : nat) : Z :=
  match j with
  | O => v
  | S j' =>
      let p := (10 ^ Z.of_nat j)%Z in
      let lo := (v / p * p)%Z in
      let hi := (lo + p)%Z in
      match readsAs v lo, readsAs v hi with
      | true, true =>
          match (v - lo ?= hi - v)%Z with
          | Lt => lo
          | Gt => hi
          | Eq => if Z.even (v / p) then lo else hi
          end
      | true, false => lo
      | false, true => hi
      | false, false => shortest v j'
      end
  end.

Fixpoint stripZeros (fuel : nat) (c : Z) : Z :=
  match fuel with
  | O => c
  | S fuel' => if (c mod 10 =? 0)%Z then stripZeros fuel' (c / 10) else c
  end.

Definition exponential (c : Z) : string :=
  let n := digits c in
  match decimal (stripZeros n c) with
  | String d EmptyString => String d EmptyString ++ "e+" ++ decimal (Z.of_nat (n - 1))
  | String d ds => String d ("." ++ ds) ++ "e+" ++ decimal (Z.of_nat (n - 1))
  | EmptyString => EmptyString
  end.

Definition toString (n : Z) : string :=
  if (Z.abs n <? 2 ^ 53)%Z then decimal n
  else
    let v := Qfloor (double (inject_Z (Z.abs n))) in
    let c := shortest v (digits v - 1) in
    ((if (n <? 0)%Z then "-" else "") ++
     (if (digits c <=? 21)%nat then decimal c else exponential c))%string.

(** [s.padStart(2, '0')] and [x.toFixed(1)]. *)

Definition padStart2 (s : string) : string :=
  match String.length s with
  | O => "00"
  | S O => "0" ++ s
  | _ => s
  end.

Definition toFixed1 (x : Q) : string :=
  let n := Qfloor (x * 10 + (1 # 2)) in
  ((if (n <? 0)%Z then "-" else "") ++
   decimal (Z.abs n / 10) ++ "." ++ decimal (Z.abs n mod 10))%string.

(** A JSON value used as an identifier: a string or a number.  [truthy]
    is the test made by [||]; [String_of] is [String(v)]. *)
Inductive IdValue := IdString (s : string) | IdNumber (n : Z).

Definition truthy (v : option IdValue) : bool :=
  match v with
  | Some (IdString s) => negb (String.eqb s "")
  | Some (IdNumber n) => negb (n =? 0)%Z
  | None => false
  end.

Definition String_of (v : option IdValue) : string :=
  match v with
  | Some (IdString s) => s
  | Some (IdNumber n) => toString n
  | None => "undefined"
  end.

(** [s.includes(sub)]. *)
Fixpoint includes (s sub : string) : bool :=
  if String.prefix sub s then true
  else match s with
       | EmptyString => false
       | String _ r => includes r sub
       end.

End JS.

Arguments JS.double : simpl never.
Arguments JS.add : simpl never.
Arguments JS.sub : simpl never.
Arguments JS.mul : simpl never.
Arguments JS.div : simpl never.

(** ** Records exchanged with the backend (services/apiClient.ts) *)

Record CaptionSegment := {
  seg_start : Q;
  seg_end : Q;
  seg_text : string;
  seg_confidence : option Q
}.

Inductive CaptionPosition := PosTop | PosCenter | PosBottom.
Inductive CaptionAnimation := AnimNone | AnimPop | AnimSlide | AnimTypewriter.

Record CaptionStyle := {
  fontSize : Q;
  fontColor : string;
  backgroundColor : string;
  backgroundOpacity : Q;
  outlineColor : string;
  outlineWidth : Q;
  position : CaptionPosition;
  animation : CaptionAnimation
}.

Definition defaultCaptionStyle : CaptionStyle :=
  {| fontSize := 24;
     fontColor := "#FFFFFF";
     backgroundColor := "#000000";
     backgroundOpacity := 8 # 10;
     outlineColor := "#000000";
     outlineWidth := 2;
     position := PosBottom;
     animation := AnimTypewriter |}.

(** An upstream clip record ([any] in the source): every property may be
    absent. *)
Module Raw.
Record t := {
  id : option JS.IdValue;
  clip_id : option JS.IdValue;
  title : option string;
  start_time : option Q;
  end_time : option Q;
  duration : option Q;
  url_path : option string;
  path : option string;
  thumbnail : option string;
  text : option string;
  caption : option string;
  hashtags : option (list string);
  captions : option (list CaptionSegment);
  captionStyle : option CaptionStyle
}.
End Raw.

Module JobStatusResponse.
Record t := {
  status : string;
  message : string;
  results : option (list Raw.t)
}.
End JobStatusResponse.

Module FinalizeResponse.
Record t := {
  status : string;
  message : string;
  finalized_clips : list Raw.t
}.
End FinalizeResponse.

(** [applyCaptions] resolves to [any]; the page reads [response.previewUrl]. *)
Module ApplyResponse.
Record t := { previewUrl : option string }.
End ApplyResponse.

Module ProcessResponse.
Record t := {
  job_id : string;
  status : string;
  message : string
}.
End ProcessResponse.

(** What an awaited call can do: resolve, or reject with an [Error] carrying
    a message, or with a value that is not an [Error]. *)
Inductive Thrown := ThrownError (message : string) | ThrownOther.

Inductive Outcome (A : Type) := Resolved (a : A) | Rejected (e : Thrown).
Arguments Resolved {A} a.
Arguments Rejected {A} e.

(** ** Records of the page *)

Module Clip.
Record t := {
  id : string;
  title : string;
  startTime : string;
  endTime : string;
  duration : string;
  thumbnail : option string;
  path : string;
  start_time : Q;
  end_time : Q;
  text : string;
  caption : string;
  hashtags : list string;
  captions : option (list CaptionSegment);
  captionStyle : option CaptionStyle
}.
End Clip.

(** [interface EditingClip extends Clip]: one flat object. *)
Record EditingClip := {
  id : string;
  title : string;
  startTime : string;
  endTime : string;
  duration : string;
  thumbnail : option string;
  path : string;
  start_time : Q;
  end_time : Q;
  text : string;
  caption : string;
  hashtags : list string;
  captions : option (list CaptionSegment);
  captionStyle : option CaptionStyle;
  originalStart : Q;
  originalEnd : Q;
  editedStart : Q;
  editedEnd : Q;
  originalPath : option string
}.

(** [{ ...clip, originalStart, originalEnd, editedStart, editedEnd }]. *)
Definition toEditing (c : Clip.t) : EditingClip :=
  {| id := Clip.id c; title := Clip.title c;
     startTime := Clip.startTime c; endTime := Clip.endTime c;
     duration := Clip.duration c; thumbnail := Clip.thumbnail c;
     path := Clip.path c;
     start_time := Clip.start_time c; end_time := Clip.end_time c;
     text := Clip.text c; caption := Clip.caption c;
     hashtags := Clip.hashtags c;
     captions := Clip.captions c; captionStyle := Clip.captionStyle c;
     originalStart := Clip.start_time c; originalEnd := Clip.end_time c;
     editedStart := Clip.start_time c; editedEnd := Clip.end_time c;
     originalPath := None |}.

(** [{ ...clip, editedStart: s, editedEnd: e }]. *)
Definition withEdited (s e : Q) (c : EditingClip) : EditingClip :=
  {| id := id c; title := title c;
     startTime := startTime c; endTime := endTime c;
     duration := duration c; thumbnail := thumbnail c; path := path c;
     start_time := start_time c; end_time := end_time c;
     text := text c; caption := caption c; hashtags := hashtags c;
     captions := captions c; captionStyle := captionStyle c;
     originalStart := originalStart c; originalEnd := originalEnd c;
     editedStart := s; editedEnd := e;
     originalPath := originalPath c |}.

(** [{ ...clip, captions, captionStyle: style, path: p, originalPath: o }]. *)
Definition withCaptions (cs : list CaptionSegment) (style : CaptionStyle)
    (p : string) (o : string) (c : EditingClip) : EditingClip :=
  {| id := id c; title := title c;
     startTime := startTime c; endTime := endTime c;
     duration := duration c; thumbnail := thumbnail c; path := p;
     start_time := start_time c; end_time := end_time c;
     text := text c; caption := caption c; hashtags := hashtags c;
     captions := Some cs; captionStyle := Some style;
     originalStart := originalStart c; originalEnd := originalEnd c;
     editedStart := editedStart c; editedEnd := editedEnd c;
     originalPath := Some o |}.

Inductive AppState := Input | Processing | Editing | Complete | Error.

Definition AppState_eqb (a b : AppState) : bool :=
  match a, b with
  | Input, Input | Processing, Processing | Editing, Editing
  | Complete, Complete | Error, Error => true
  | _, _ => false
  end.

(** ['start' | 'end' | 'move']; the ['none'] of [isDragging.type] is [None]. *)
Inductive DragType := DragStart | DragEnd | DragMove.

(** The state cells of [CreatePage] that the embedded handlers read or
    write.  The cells of the form and of the two modals are left out: no
    handler below touches them. *)
Record State := mkState {
  appState : AppState;
  jobId : string;
  jobStatus : option JobStatusResponse.t;
  error : string;
  currentClipIndex : nat;
  editingClips : list EditingClip;
  finalizedClips : list Raw.t;
  currentTime : Q;
  videoDuration : Q;
  isDragging : option DragType * Z;
  dragStartX : Q;
  dragStartValue : Q;
  isPreventingTimelineClick : bool;
  isFinalizingClips : bool
}.

(** The initial values of the [useState] calls. *)
Definition initialState : State :=
  {| appState := Input; jobId := ""; jobStatus := None; error := "";
     currentClipIndex := 0; editingClips := []; finalizedClips := [];
     currentTime := 0; videoDuration := 0;
     isDragging := (None, (-1)%Z); dragStartX := 0; dragStartValue := 0;
     isPreventingTimelineClick := false; isFinalizingClips := false |}.

(** The setters returned by [useState]. *)
Definition setAppState (v : AppState) (s : State) : State :=
  mkState v (jobId s) (jobStatus s) (error s) (currentClipIndex s) (editingClips s) (finalizedClips s) (currentTime s) (videoDuration s) (isDragging s) (dragStartX s) (dragStartValue s) (isPreventingTimelineClick s) (isFinalizingClips s).
Definition setJobStatus (v : option JobStatusResponse.t) (s : State) : State :=
  mkState (appState s) (jobId s) v (error s) (currentClipIndex s) (editingClips s) (finalizedClips s) (currentTime s) (videoDuration s) (isDragging s) (dragStartX s) (dragStartValue s) (isPreventingTimelineClick s) (isFinalizingClips s).
Definition setError (v : string) (s : State) : State :=
  mkState (appState s) (jobId s) (jobStatus s) v (currentClipIndex s) (editingClips s) (finalizedClips s) (currentTime s) (videoDuration s) (isDragging s) (dragStartX s) (dragStartValue s) (isPreventingTimelineClick s) (isFinalizingClips s).
Definition setCurrentClipIndex (v : nat) (s : State) : State :=
  mkState (appState s) (jobId s) (jobStatus s) (error s) v (editingClips s) (finalizedClips s) (currentTime s) (videoDuration s) (isDragging s) (dragStartX s) (dragStartValue s) (isPreventingTimelineClick s) (isFinalizingClips s).
Definition setEditingClips (v : list EditingClip) (s : State) : State :=
  mkState (appState s) (jobId s) (jobStatus s) (error s) (currentClipIndex s) v (finalizedClips s) (currentTime s) (videoDuration s) (isDragging s) (dragStartX s) (dragStartValue s) (isPreventingTimelineClick s) (isFinalizingClips s).
Definition setFinalizedClips (v : list Raw.t) (s : State) : State :=
  mkState (appState s) (jobId s) (jobStatus s) (error s) (currentClipIndex s) (editingClips s) v (currentTime s) (videoDuration s) (isDragging s) (dragStartX s) (dragStartValue s) (isPreventingTimelineClick s) (isFinalizingClips s).
Definition setCurrentTime (v : Q) (s : State) : State :=
  mkState (appState s) (jobId s) (jobStatus s) (error s) (currentClipIndex s) (editingClips s) (finalizedClips s) v (videoDuration s) (isDragging s) (dragStartX s) (dragStartValue s) (isPreventingTimelineClick s) (isFinalizingClips s).
Definition setVideoDuration (v : Q) (s : State) : State :=
  mkState (appState s) (jobId s) (jobStatus s) (error s) (currentClipIndex s) (editingClips s) (finalizedClips s) (currentTime s) v (isDragging s) (dragStartX s) (dragStartValue s) (isPreventingTimelineClick s) (isFinalizingClips s).
Definition setIsDragging (v : option DragType * Z) (s : State) : State :=
  mkState (appState s) (jobId s) (jobStatus s) (error s) (currentClipIndex s) (editingClips s) (finalizedClips s) (currentTime s) (videoDuration s) v (dragStartX s) (dragStartValue s) (isPreventingTimelineClick s) (isFinalizingClips s).
Definition setDragStartX (v : Q) (s : State) : State :=
  mkState (appState s) (jobId s) (jobStatus s) (error s) (currentClipIndex s) (editingClips s) (finalizedClips s) (currentTime s) (videoDuration s) (isDragging s) v (dragStartValue s) (isPreventingTimelineClick s) (isFinalizingClips s).
Definition setDragStartValue (v : Q) (s : State) : State :=
  mkState (appState s) (jobId s) (jobStatus s) (error s) (currentClipIndex s) (editingClips s) (finalizedClips s) (currentTime s) (videoDuration s) (isDragging s) (dragStartX s) v (isPreventingTimelineClick s) (isFinalizingClips s).
Definition setIsPreventingTimelineClick (v : bool) (s : State) : State :=
  mkState (appState s) (jobId s) (jobStatus s) (error s) (currentClipIndex s) (editingClips s) (finalizedClips s) (currentTime s) (videoDuration s) (isDragging s) (dragStartX s) (dragStartValue s) v (isFinalizingClips s).
Definition setIsFinalizingClips (v : bool) (s : State) : State :=
  mkState (appState s) (jobId s) (jobStatus s) (error s) (currentClipIndex s) (editingClips s) (finalizedClips s) (currentTime s) (videoDuration s) (isDragging s) (dragStartX s) (dragStartValue s) (isPreventingTimelineClick s) v.

Definition setJobId (v : string) (s : State) : State :=
  mkState (appState s) v (jobStatus s) (error s) (currentClipIndex s) (editingClips s) (finalizedClips s) (currentTime s) (videoDuration s) (isDragging s) (dragStartX s) (dragStartValue s) (isPreventingTimelineClick s) (isFinalizingClips s).

(** ** Ingest: [formatTime], [formatDuration], [processClips] *)

Definition formatTime (seconds : Q) : string :=
  let mins := JS.Math_floor (JS.div seconds 60) in
  let secs := JS.Math_floor (JS.rem seconds 60) in
  (JS.padStart2 (JS.toString mins) ++ ":" ++ JS.padStart2 (JS.toString secs))%string.

Definition formatDuration (seconds : Q) : string :=
  let roundedSeconds := JS.div (inject_Z (JS.Math_round (JS.mul seconds 10))) 10 in
  let mins := JS.Math_floor (JS.div roundedSeconds 60) in
  let remainingSecs := JS.rem roundedSeconds 60 in
  if (0 <? mins)%Z then
    (JS.toString mins ++ ":" ++
     JS.padStart2 (JS.toString (JS.Math_floor remainingSecs)))%string
  else if Qeq_bool (JS.rem remainingSecs 1) 0 then
    (JS.toString (JS.Math_floor remainingSecs) ++ "s")%string
  else
    (JS.toFixed1 remainingSecs ++ "s")%string.

(** The callback of [results.map] in [processClips].  [random] is the text
    of the [Math.random()] draw, made only when the record has neither
    [id] nor [clip_id]. *)
Definition processClip (random : string) (clip : Raw.t) : Clip.t :=
  {| Clip.id :=
       if JS.truthy (Raw.id clip) then JS.String_of (Raw.id clip)
       else if JS.truthy (Raw.clip_id clip) then JS.String_of (Raw.clip_id clip)
       else random;
     Clip.title :=
       JS.or_string (Raw.title clip) ("Clip " ++ JS.String_of (Raw.id clip));
     Clip.startTime := formatTime (JS.or_zero (Raw.start_time clip));
     Clip.endTime := formatTime (JS.or_zero (Raw.end_time clip));
     Clip.duration := formatDuration (JS.or_zero (Raw.duration clip));
     Clip.path := JS.or_string (Raw.url_path clip) (JS.or_string (Raw.path clip) "");
     Clip.thumbnail := Raw.thumbnail clip;
     Clip.start_time := JS.or_zero (Raw.start_time clip);
     Clip.end_time := JS.or_zero (Raw.end_time clip);
     Clip.text := JS.or_string (Raw.text clip) "";
     Clip.caption := JS.or_string (Raw.caption clip) "";
     Clip.hashtags := default [] (Raw.hashtags clip);
     Clip.captions := Some (default [] (Raw.captions clip));
     Clip.captionStyle := Some (default defaultCaptionStyle (Raw.captionStyle clip)) |}.

(** [random i] is the draw for the record at index [i]. *)
Definition processClips (random : nat -> string) (results : option (list Raw.t))
    : list Clip.t :=
  match results with
  | None => []
  | Some [] => []
  | Some l => imap (fun i clip => processClip (random i) clip) l
  end.

(** ** Submission *)

(** [handleSubmit] once its guard on the form has passed: [setError('')],
    then the continuation on the outcome of [apiService.startProcessing]. *)
Definition handleSubmit (s : State) (o : Outcome ProcessResponse.t) : State :=
  let s := setError "" s in
  match o with
  | Resolved response =>
      setJobStatus
        (Some {| JobStatusResponse.status := ProcessResponse.status response;
                 JobStatusResponse.message := ProcessResponse.message response;
                 JobStatusResponse.results := None |})
        (setAppState Processing (setJobId (ProcessResponse.job_id response) s))
  | Rejected (ThrownError m) => setAppState Error (setError m s)
  | Rejected ThrownOther => setAppState Error (setError "An error occurred" s)
  end.

(** ** The polling effect and [pollStatus] *)

(** The continuation of [pollStatus] after [await apiService.getJobStatus]. *)
Definition pollStatus (random : nat -> string) (s : State)
    (o : Outcome JobStatusResponse.t) : State :=
  match o with
  | Resolved status =>
      let s := setJobStatus (Some status) s in
      if String.eqb (JobStatusResponse.status status) "complete" then
        let clips := processClips random (Some (default [] (JobStatusResponse.results status))) in
        let editingClipsData := map toEditing clips in
        setAppState Editing (setEditingClips editingClipsData s)
      else if String.eqb (JobStatusResponse.status status) "failed" then
        setAppState Error (setError (JobStatusResponse.message status) s)
      else s
  | Rejected (ThrownError m) => setAppState Error (setError m s)
  | Rejected ThrownOther => setAppState Error (setError "Failed to get job status" s)
  end.

(** What the body of the polling [useEffect] does when React runs it. *)
Inductive EffectAction := CallPollStatus | SetInterval (ms : Z).

(** The effect returns early (no action, no cleanup) unless its guard
    holds; otherwise it polls once, installs the interval, and its cleanup
    is [clearInterval]. *)
Definition pollingGuard (s : State) : bool :=
  negb (negb (AppState_eqb (appState s) Processing)
        || String.eqb (jobId s) ""
        || isFinalizingClips s).

Definition pollingEffect (s : State) : list EffectAction :=
  if pollingGuard s then [CallPollStatus; SetInterval 3000] else [].

(** The dependency array [[appState, jobId, isFinalizingClips]]. *)
Definition pollingDeps (s : State) : AppState * string * bool :=
  (appState s, jobId s, isFinalizingClips s).

Definition deps_eqb (a b : AppState * string * bool) : bool :=
  AppState_eqb a.1.1 b.1.1 && String.eqb a.1.2 b.1.2 && Bool.eqb a.2 b.2.

(** React around the effect: the state of the last committed render and
    the interval installed by the effect, if any.  [mount] runs the effect
    for the first render; [commit] is a later render: when a dependency
    changed the previous cleanup runs, then the effect; [tick] is the timer
    firing.  Each returns the number of [pollStatus] calls it made. *)
Record Mounted := {
  rendered : State;
  interval : option Z
}.

Definition runEffect (s : State) : Mounted * nat :=
  let acts := pollingEffect s in
  ({| rendered := s;
      interval := last (omap (fun a => match a with SetInterval ms => Some ms | _ => None end) acts) |},
   length (List.filter (fun a => match a with CallPollStatus => true | _ => false end) acts)).

Definition mount (s : State) : Mounted * nat := runEffect s.

Definition commit (m : Mounted) (s : State) : Mounted * nat :=
  if deps_eqb (pollingDeps (rendered m)) (pollingDeps s)
  then ({| rendered := s; interval := interval m |}, 0%nat)
  else runEffect s.

Definition tick (m : Mounted) : nat :=
  match interval m with
  | Some _ => 1%nat
  | None => 0%nat
  end.

(** A sequence of later renders. *)
Definition commits (m : Mounted) (renders : list State) : Mounted :=
  fold_left (fun m s => (commit m s).1) renders m.

(** ** Timeline drag handlers *)

(** The values [handleMouseMove] reads from the scope that created it: the
    arguments of [handleTimelineMouseDown] and the state cells of the
    render in which that handler was built. *)
Record MoveClosure := {
  cl_dragType : DragType;
  cl_clipIndex : nat;
  cl_editingClips : list EditingClip;
  cl_dragStartX : Q;
  cl_dragStartValue : Q;
  cl_videoDuration : Q
}.

(** [otherClips], [minBound] and [maxBound] of [handleMouseMove]. *)
Definition otherClips (clipIndex : nat) (clips : list EditingClip) : list EditingClip :=
  JS.Array_filter (fun _ i => negb (i =? clipIndex)%nat) clips.

Definition minBound (clip : EditingClip) (others : list EditingClip) : Q :=
  JS.Math_max 0
    (List.filter (fun e => Qle_bool e (editedStart clip)) (map editedEnd others)).

Definition maxBound (videoDuration : Q) (clip : EditingClip) (others : list EditingClip) : Q :=
  JS.Math_min videoDuration
    (List.filter (fun st => Qle_bool (editedEnd clip) st) (map editedStart others)).

(** The value written at [newClips[clipIndex]], by drag type; [request] is
    [dragStartValue + deltaTime], which only goes through [Math.max] and
    [Math.min].  The sums and differences are those of doubles: a move
    stores [newStart + clipDuration], rounded, as the new end. *)
Definition draggedClip (dragType : DragType) (lo hi request : Q)
    (clip : EditingClip) : EditingClip :=
  match dragType with
  | DragStart =>
      let newStart := Qmax lo (Qmin (JS.sub (editedEnd clip) 1) request) in
      withEdited newStart (editedEnd clip) clip
  | DragEnd =>
      let newEnd := Qmin hi (Qmax (JS.add (editedStart clip) 1) request) in
      withEdited (editedStart clip) newEnd clip
  | DragMove =>
      let clipDuration := JS.sub (editedEnd clip) (editedStart clip) in
      let newStart := Qmax lo (Qmin (JS.sub hi clipDuration) request) in
      withEdited newStart (JS.add newStart clipDuration) clip
  end.

Definition deltaTime (k : MoveClosure) (timelineWidth clientX : Q) : Q :=
  let deltaX := clientX - cl_dragStartX k in
  (deltaX / timelineWidth) * cl_videoDuration k.

(** [handleMouseMove]: [timelineRef] is the width of the timeline element
    when it is mounted.  The result is the argument of [setEditingClips],
    or [None] when the handler returns before calling it. *)
Definition handleMouseMove (k : MoveClosure) (timelineRef : option Q) (clientX : Q)
    : option (list EditingClip) :=
  match timelineRef with
  | None => None
  | Some timelineWidth =>
      match cl_editingClips k !! cl_clipIndex k with
      | None => None
      | Some clip =>
          let newClips := cl_editingClips k in
          let others := otherClips (cl_clipIndex k) (cl_editingClips k) in
          let lo := minBound clip others in
          let hi := maxBound (cl_videoDuration k) clip others in
          let request := cl_dragStartValue k + deltaTime k timelineWidth clientX in
          Some (<[cl_clipIndex k := draggedClip (cl_dragType k) lo hi request clip]> newClips)
      end
  end.

(** [handleTimelineMouseDown]: [None] when it returns at its first test.
    Otherwise the state after its setters, and the closure it registers on
    [document].  The closure is built from [s], the state of the current
    render: the setters only take effect in the next one. *)
Definition handleTimelineMouseDown (s : State) (timelineRef : option Q)
    (clientX : Q) (dragType : DragType) (clipIndex : nat)
    : option (State * MoveClosure) :=
  match timelineRef with
  | None => None
  | Some _ =>
      if negb (clipIndex =? currentClipIndex s)%nat then None
      else
        let s1 := setIsPreventingTimelineClick true
                    (setDragStartX clientX
                       (setIsDragging (Some dragType, Z.of_nat clipIndex) s)) in
        let s2 :=
          match editingClips s !! clipIndex with
          | Some currentClip =>
              match dragType with
              | DragStart => setDragStartValue (editedStart currentClip) s1
              | DragEnd => setDragStartValue (editedEnd currentClip) s1
              | DragMove => setDragStartValue (editedStart currentClip) s1
              end
          | None => s1
          end in
        Some (s2,
              {| cl_dragType := dragType;
                 cl_clipIndex := clipIndex;
                 cl_editingClips := editingClips s;
                 cl_dragStartX := dragStartX s;
                 cl_dragStartValue := dragStartValue s;
                 cl_videoDuration := videoDuration s |})
  end.

(** [handleMouseUp], and the 150 ms timeout it starts. *)
Definition handleMouseUp (s : State) : State :=
  setIsDragging (None, (-1)%Z) s.

Definition afterMouseUpTimeout (s : State) : State :=
  setIsPreventingTimelineClick false s.

(** [navigateToClip]; [refs] tells whether both timeline refs are mounted. *)
Definition navigateToClip (s : State) (refs : bool) (clipIndex : nat) : State :=
  let s1 := setCurrentClipIndex clipIndex s in
  match editingClips s !! clipIndex with
  | Some clip => if refs then setCurrentTime (editedStart clip) s1 else s1
  | None => s1
  end.

(** The page during drag gestures: its state and the [mousemove] listeners
    currently registered on [document], oldest first. *)
Record Page := {
  state : State;
  listeners : list MoveClosure
}.

(** [MouseDown] is a call of [handleTimelineMouseDown] (from an edge handle
    or from the body of the selected clip), [ClickGuardTimeout] the timeout
    started by [handleMouseUp] firing, [Navigate] a call of
    [navigateToClip] (from the body of another clip or from the clip
    selector). *)
Inductive DragEvent :=
| MouseDown (clientX : Q) (dragType : DragType) (clipIndex : nat)
| MouseMove (clientX : Q)
| MouseUp
| ClickGuardTimeout
| Navigate (clipIndex : nat).

(** One listener receiving a [mousemove]. *)
Definition deliverMove (timelineRef : option Q) (clientX : Q) (s : State)
    (k : MoveClosure) : State :=
  match handleMouseMove k timelineRef clientX with
  | Some newClips => setEditingClips newClips s
  | None => s
  end.

Definition dispatch (timelineRef : option Q) (p : Page) (e : DragEvent) : Page :=
  match e with
  | MouseDown clientX dragType clipIndex =>
      match handleTimelineMouseDown (state p) timelineRef clientX dragType clipIndex with
      | Some (s', k) => {| state := s'; listeners := listeners p ++ [k] |}
      | None => p
      end
  | MouseMove clientX =>
      {| state := fold_left (deliverMove timelineRef clientX) (listeners p) (state p);
         listeners := listeners p |}
  | MouseUp =>
      match listeners p with
      | [] => p
      | _ :: _ => {| state := handleMouseUp (state p); listeners := [] |}
      end
  | ClickGuardTimeout =>
      {| state := afterMouseUpTimeout (state p); listeners := listeners p |}
  | Navigate clipIndex =>
      {| state := navigateToClip (state p) (bool_decide (is_Some timelineRef)) clipIndex;
         listeners := listeners p |}
  end.

Definition run (timelineRef : option Q) (p : Page) (es : list DragEvent) : Page :=
  fold_left (dispatch timelineRef) es p.

(** ** [onLoadedMetadata] of the preview video *)

(** The [<video>] element behind [e.currentTarget]: its intrinsic
    duration and its playback position. *)
Record VideoElement := {
  video_duration : Q;
  video_currentTime : Q
}.

Definition onLoadedMetadata (s : State) (video : VideoElement) : State * VideoElement :=
  let s1 := setVideoDuration 120 s in
  match editingClips s !! currentClipIndex s with
  | Some currentClip =>
      (setCurrentTime (editedStart currentClip) s1,
       {| video_duration := video_duration video; video_currentTime := 0 |})
  | None => (s1, video)
  end.

(** The timeline as rendered: the number of 30-second markers, and the
    [style] of a clip box, with [left] and [width] in percent and
    [minWidth] in pixels.  [minStart] is
    [Math.min(...editingClips.map(c => c.editedStart))], defined when there
    is a clip (the editing view is rendered only then). *)
Record BoxStyle := {
  box_left : Q;
  box_width : Q;
  box_minWidth : Q
}.

Definition markerCount (s : State) : Z := Qceiling (videoDuration s / 30) + 1.

Definition minStart (clips : list EditingClip) : option Q :=
  match map editedStart clips with
  | [] => None
  | x :: xs => Some (JS.Math_min x xs)
  end.

Definition clipBoxStyle (s : State) (clip : EditingClip) : option BoxStyle :=
  match minStart (editingClips s) with
  | None => None
  | Some m =>
      let normalizedStart := editedStart clip - m in
      let normalizedDuration := editedEnd clip - editedStart clip in
      Some {| box_left := (normalizedStart / videoDuration s) * 100;
              box_width := (normalizedDuration / videoDuration s) * 100;
              box_minWidth := 40 |}
  end.

(** ** Finalization *)

(** One element of [formattedEditingClips]. *)
Record FormattedClip := {
  fc_clip : EditingClip;
  hasCaptionedVersion : option bool
}.

(** [clip.captions && clip.captions.length > 0]. *)
Definition hasCaptions (clip : EditingClip) : option bool :=
  match captions clip with
  | Some cs => Some (negb (length cs =? 0)%nat)
  | None => None
  end.

Definition formatEditingClip (clip : EditingClip) : FormattedClip :=
  {| fc_clip :=
       {| id := id clip; title := title clip;
          startTime := startTime clip; endTime := endTime clip;
          duration := duration clip; thumbnail := None; path := path clip;
          start_time := start_time clip; end_time := end_time clip;
          text := text clip; caption := caption clip; hashtags := hashtags clip;
          captions := captions clip; captionStyle := captionStyle clip;
          originalStart := originalStart clip; originalEnd := originalEnd clip;
          editedStart := editedStart clip; editedEnd := editedEnd clip;
          originalPath := None |};
     hasCaptionedVersion := hasCaptions clip |}.

(** [handleFinalize] up to its [await]: the state after the setters called
    so far, and the request body handed to [apiService.finalizeClips] if
    the call is reached ([None] when the handler returns at one of its two
    guards). *)
Definition handleFinalize_begin (s : State) : State * option (list FormattedClip) :=
  if String.eqb (jobId s) "" then (s, None)
  else if isFinalizingClips s then (s, None)
  else
    let s1 := setIsFinalizingClips true s in
    let s2 := setAppState Processing s1 in
    let s3 := setJobStatus
                (Some {| JobStatusResponse.status := "processing";
                         JobStatusResponse.message := "Finalizing clips with your edits...";
                         JobStatusResponse.results := None |}) s2 in
    (s3, Some (map formatEditingClip (editingClips s))).

(** The rest of the [try] block: the state on normal completion, or the
    value thrown. *)
Definition finalize_try (s : State) (o : Outcome FinalizeResponse.t) : State + Thrown :=
  match o with
  | Rejected e => inr e
  | Resolved finalizeResponse =>
      if String.eqb (FinalizeResponse.status finalizeResponse) "success" then
        let s1 := setFinalizedClips (FinalizeResponse.finalized_clips finalizeResponse) s in
        let s2 := setAppState Complete s1 in
        inl (setJobStatus
               (Some {| JobStatusResponse.status := "complete";
                        JobStatusResponse.message := "All clips finalized successfully!";
                        JobStatusResponse.results :=
                          Some (FinalizeResponse.finalized_clips finalizeResponse) |}) s2)
      else
        inr (ThrownError (JS.or_string (Some (FinalizeResponse.message finalizeResponse))
                            "Failed to finalize clips"))
  end.

(** The [catch] block. *)
Definition finalize_catch (s : State) (e : Thrown) : State :=
  let s1 :=
    match e with
    | ThrownError m =>
        if JS.includes m "Failed to fetch"
        then setError "Network error during finalization. Please check your connection and try again." s
        else setError ("Finalization failed: " ++ m) s
    | ThrownOther => setError "Finalization failed: Unknown error" s
    end in
  setAppState Error s1.

(** The continuation of [handleFinalize] after the [await], with its
    [finally] block. *)
Definition handleFinalize_settle (s : State) (o : Outcome FinalizeResponse.t) : State :=
  let s1 :=
    match finalize_try s o with
    | inl s' => s'
    | inr e => finalize_catch s e
    end in
  setIsFinalizingClips false s1.

(** ** Captions *)

(** The state of [CaptionsModal] read by [handleApplyCaptions]. *)
Module CaptionsModal.
Record t := {
  clip : EditingClip;
  jobId : string;
  captions : list CaptionSegment;
  captionStyle : CaptionStyle
}.
End CaptionsModal.

(** The updater passed to [setEditingClips] by [handleCaptionsApplied]. *)
Definition applyCaptionsTo (clipId : string) (cs : list CaptionSegment)
    (style : CaptionStyle) (captionedVideoUrl : option string)
    (clip : EditingClip) : EditingClip :=
  if String.eqb (id clip) clipId then
    withCaptions cs style
      (JS.or_string captionedVideoUrl (path clip))
      (JS.or_string (originalPath clip) (path clip))
      clip
  else clip.

Definition handleCaptionsApplied (clipId : string) (cs : list CaptionSegment)
    (style : CaptionStyle) (captionedVideoUrl : option string) (s : State) : State :=
  setEditingClips (map (applyCaptionsTo clipId cs style captionedVideoUrl) (editingClips s)) s.

(** The continuation of [handleApplyCaptions] after
    [await apiService.applyCaptions], as seen by the page: both branches
    call [onCaptionsApplied], the [catch] branch without a URL. *)
Definition handleApplyCaptions (m : CaptionsModal.t) (o : Outcome ApplyResponse.t)
    (s : State) : State :=
  match o with
  | Resolved response =>
      handleCaptionsApplied (id (CaptionsModal.clip m)) (CaptionsModal.captions m)
        (CaptionsModal.captionStyle m) (ApplyResponse.previewUrl response) s
  | Rejected _ =>
      handleCaptionsApplied (id (CaptionsModal.clip m)) (CaptionsModal.captions m)
        (CaptionsModal.captionStyle m) None s
  end.

(** ** Properties of a clip collection *)

(** Two clips whose edited intervals do not overlap. *)
Definition Disjoint (a b : EditingClip) : Prop :=
  editedEnd a <= editedStart b \/ editedEnd b <= editedStart a.

(** The no-overlap invariant: any two clips at distinct positions of the
    collection are disjoint. *)
Definition NoOverlap (clips : list EditingClip) : Prop :=
  forall i j ci cj, i <> j -> clips !! i = Some ci -> clips !! j = Some cj ->
    Disjoint ci cj.


(** No clip starts before the origin of the timeline. *)
Definition NonNegative (clips : list EditingClip) : Prop :=
  forall c, c ∈ clips -> 0 <= editedStart c.

(** Bounds containment for a timeline of duration [d]. *)
Definition InBounds (d : Q) (c : EditingClip) : Prop :=
  0 <= editedStart c /\ editedStart c < editedEnd c /\ editedEnd c <= d.

(** Executable counterparts, for closed instances. *)
Definition disjointb (a b : EditingClip) : bool :=
  Qle_bool (editedEnd a) (editedStart b) || Qle_bool (editedEnd b) (editedStart a).

Fixpoint no_overlapb (clips : list EditingClip) : bool :=
  match clips with
  | [] => true
  | c :: r => forallb (disjointb c) r && no_overlapb r
  end.

Definition in_boundsb (d : Q) (c : EditingClip) : bool :=
  Qle_bool 0 (editedStart c)
  && negb (Qle_bool (editedEnd c) (editedStart c))
  && Qle_bool (editedEnd c) d.


(** [n], at position [j], is the other clip that follows [clip] most
    closely (resp. precedes it most closely) in [clips]. *)
Definition NearestAfter (clips : list EditingClip) (i : nat) (clip : EditingClip)
    (j : nat) (n : EditingClip) : Prop :=
  clips !! j = Some n /\ j <> i /\ editedEnd clip <= editedStart n /\
  forall j' y, clips !! j' = Some y -> j' <> i ->
               editedEnd clip <= editedStart y -> editedStart n <= editedStart y.

Definition NearestBefore (clips : list EditingClip) (i : nat) (clip : EditingClip)
    (j : nat) (n : EditingClip) : Prop :=
  clips !! j = Some n /\ j <> i /\ editedEnd n <= editedStart clip /\
  forall j' y, clips !! j' = Some y -> j' <> i ->
               editedEnd y <= editedStart clip -> editedEnd y <= editedEnd n.



(** The condition under which the effect polls. *)
Definition Polling (s : State) : Prop :=
  appState s = Processing /\ jobId s <> ""%string /\ isFinalizingClips s = false.

(** The invariant carried along a sequence of drag events: [P] holds of
    the clips of the page and of the clips captured by every registered
    listener, each of which captured the current timeline duration. *)
Definition PageInv (P : Q -> list EditingClip -> Prop) (p : Page) : Prop :=
  P (videoDuration (state p)) (editingClips (state p)) /\
  Forall (fun k => cl_videoDuration k = videoDuration (state p) /\
                   P (cl_videoDuration k) (cl_editingClips k)) (listeners p).

(** ** Concrete pages and inputs *)

(** An upstream record carrying only [id], [start_time] and [end_time]. *)
Definition rawClip (n : Z) (start_time end_time : Q) : Raw.t :=
  {| Raw.id := Some (JS.IdNumber n); Raw.clip_id := None; Raw.title := None;
     Raw.start_time := Some start_time; Raw.end_time := Some end_time;
     Raw.duration := None; Raw.url_path := None; Raw.path := None;
     Raw.thumbnail := None; Raw.text := None; Raw.caption := None;
     Raw.hashtags := None; Raw.captions := None; Raw.captionStyle := None |}.

(** The page while job ["job-1"] is being processed, and the state reached
    when a poll reports the job complete with the given records. *)
Definition processingState : State :=
  setJobStatus
    (Some {| JobStatusResponse.status := "processing";
             JobStatusResponse.message := "queued";
             JobStatusResponse.results := None |})
    (setAppState Processing
       (mkState Input "job-1" None "" 0 [] [] 0 0 (None, (-1)%Z) 0 0 false false)).

Definition ingest (results : list Raw.t) : State :=
  pollStatus (fun _ => "0.5"%string) processingState
    (Resolved {| JobStatusResponse.status := "complete";
                 JobStatusResponse.message := "done";
                 JobStatusResponse.results := Some results |}).

(** The same, once the preview video has loaded its metadata. *)
Definition ingestLoaded (results : list Raw.t) : State :=
  (onLoadedMetadata (ingest results)
     {| video_duration := 37; video_currentTime := 3 |}).1.

Definition idle (s : State) : Page := {| state := s; listeners := [] |}.

(** The spec's scenario: two adjacent ten-second clips. *)
Definition adjacentClips : list Raw.t := [rawClip 1 0 10; rawClip 2 10 20].


(** Clips whose bounds are not whole numbers, as doubles: [0, 1.2) and
    [3.4, 10); [0.6, 1.7); and a clip one unit in the last place long,
    from 1 to the next double. *)
Definition roundingClips : list Raw.t :=
  [rawClip 1 0 (JS.double (6 # 5)); rawClip 2 (JS.double (17 # 5)) 10].

Definition tenthsClips : list Raw.t :=
  [rawClip 1 (JS.double (3 # 5)) (JS.double (17 # 10))].

Definition shortClips : list Raw.t :=
  [rawClip 1 1 (4503599627370497 # 4503599627370496)].

(** Two clips placed beyond the 120 seconds of the timeline. *)
Definition lateClips : list Raw.t := [rawClip 1 200 210; rawClip 2 210 220].

(** The closure of a drag of the right edge of the first of the two
    adjacent clips, pressed at x = 100 when the edge is at 10 s. *)
Definition rightEdgeOfFirst (clips : list EditingClip) (edge : Q) : MoveClosure :=
  {| cl_dragType := DragEnd; cl_clipIndex := 0;
     cl_editingClips := clips;
     cl_dragStartX := 100; cl_dragStartValue := edge;
     cl_videoDuration := 120 |}.




(** The page while the finalize call for the two adjacent clips is in
    flight, and a successful response carrying two finalized records. *)
Definition finalizingState : State :=
  (handleFinalize_begin (ingestLoaded adjacentClips)).1.

Definition successResponse : FinalizeResponse.t :=
  {| FinalizeResponse.status := "success";
     FinalizeResponse.message := "ok";
     FinalizeResponse.finalized_clips := [rawClip 1 0 8; rawClip 2 12 20] |}.

(** The modal opened on the first of the two adjacent clips, holding the
    captions that [handleGenerateCaptions] falls back to. *)
Definition mockCaptions : list CaptionSegment :=
  [ {| seg_start := 0; seg_end := 5 # 2; seg_text := "This will blow your mind!";
       seg_confidence := None |};
    {| seg_start := 5 # 2; seg_end := 5; seg_text := "You won't believe what happens next";
       seg_confidence := None |} ].

Definition modalOnFirst : CaptionsModal.t :=
  {| CaptionsModal.clip := toEditing (processClip "0.5" (rawClip 1 0 10));
     CaptionsModal.jobId := "job-1";
     CaptionsModal.captions := mockCaptions;
     CaptionsModal.captionStyle := defaultCaptionStyle |}.

(** * More of the page *)

(** ** Seeking, playback position and reset *)

(** [getBoundingClientRect()] of the timeline element. *)
Record Rect := {
  rect_left : Q;
  rect_width : Q
}.

(** [handleTimelineClick]: the state after the click and the video element
    after the assignment to its [currentTime], when it is mounted. *)
Definition handleTimelineClick (s : State) (timelineRef : option Rect)
    (videoRef : option VideoElement) (clientX : Q) : State * option VideoElement :=
  match timelineRef, videoRef with
  | Some rect, Some video =>
      if bool_decide (is_Some (isDragging s).1) || isPreventingTimelineClick s
      then (s, videoRef)
      else
        let clickX := clientX - rect_left rect in
        let clickTime := (clickX / rect_width rect) * videoDuration s in
        (setCurrentTime clickTime s,
         Some {| video_duration := video_duration video; video_currentTime := clickTime |})
  | _, _ => (s, videoRef)
  end.

(** [onTimeUpdate] of the preview video. *)
Definition onTimeUpdate (s : State) (video : VideoElement) : State :=
  match editingClips s !! currentClipIndex s with
  | Some currentClip =>
      let relativeTime := video_currentTime video in
      let timelineTime := editedStart currentClip + relativeTime in
      setCurrentTime timelineTime s
  | None => s
  end.

(** The [left] of the playhead, in percent. *)
Definition playheadLeft (s : State) : option Q :=
  match minStart (editingClips s) with
  | None => None
  | Some m => Some (((currentTime s - m) / videoDuration s) * 100)
  end.

(** [handleReset], on the cells of [State] (it also empties the form). *)
Definition handleReset (s : State) : State :=
  let s := setAppState Input s in
  let s := setJobId "" s in
  let s := setJobStatus None s in
  let s := setError "" s in
  let s := setCurrentClipIndex 0 s in
  let s := setEditingClips [] s in
  let s := setFinalizedClips [] s in
  let s := setCurrentTime 0 s in
  setVideoDuration 0 s.

(** ** The form and the guard of [handleSubmit] *)

Record FormData := {
  url : string;
  prompt : string
}.

(** [s.trim()], for the white space of ASCII: tab, line feed, vertical tab,
    form feed, carriage return and space. *)
Definition isWhiteSpace (c : ascii) : bool :=
  let n := nat_of_ascii c in
  ((9 <=? n) && (n <=? 13))%nat || (n =? 32)%nat.

Fixpoint trimStart (s : string) : string :=
  match s with
  | EmptyString => EmptyString
  | String c r => if isWhiteSpace c then trimStart r else s
  end.

Fixpoint trimEnd (s : string) : string :=
  match s with
  | EmptyString => EmptyString
  | String c r =>
      match trimEnd r with
      | EmptyString => if isWhiteSpace c then EmptyString else String c EmptyString
      | r' => String c r'
      end
  end.

Definition trim (s : string) : string := trimEnd (trimStart s).

(** Text made of ASCII characters only: on such text [trim] above is the
    whole of JavaScript's [trim], which also knows white space outside
    ASCII. *)
Definition isASCII (s : string) : bool :=
  forallb (fun c => (nat_of_ascii c <? 128)%nat) (list_ascii_of_string s).

Definition isFormValid (formData : FormData) : bool :=
  negb (String.eqb (trim (url formData)) "") && negb (String.eqb (trim (prompt formData)) "").

(** [handleSubmit] up to its [await]: whether [apiService.startProcessing]
    is called, and with which arguments. *)
Definition handleSubmit_begin (formData : FormData) (isSubmitting : bool)
    : option (string * string) :=
  if negb (isFormValid formData) || isSubmitting then None
  else Some (url formData, prompt formData).

(** ** Repeated caption application *)

(** Successive calls of [handleCaptionsApplied] for one clip, each with its
    captions, style and optional URL. *)
Definition applyAll (clipId : string)
    (calls : list (list CaptionSegment * CaptionStyle * option string)) (s : State) : State :=
  fold_left (fun s call => handleCaptionsApplied clipId call.1.1 call.1.2 call.2 s) calls s.

(** ** The HTTP wrappers of [apiService] *)

(** What [fetch] resolves to, as far as the wrappers look: [ok], [status],
    [statusText] and the outcome of [response.json()]. *)
Module Response.
Record t (A : Type) := {
  ok : bool;
  status : Z;
  statusText : string;
  json : Outcome A
}.
Arguments ok {A} _.
Arguments status {A} _.
Arguments statusText {A} _.
Arguments json {A} _.
End Response.

(** The body shared by the wrappers: a rejected [fetch] propagates, a
    response that is not [ok] throws [Error(prefix + status + ' ' +
    statusText)], any other returns [response.json()]. *)
Definition apiCall {A} (prefix : string) (fetched : Outcome (Response.t A)) : Outcome A :=
  match fetched with
  | Rejected e => Rejected e
  | Resolved response =>
      if negb (Response.ok response) then
        Rejected (ThrownError (prefix ++ JS.toString (Response.status response) ++ " "
                               ++ Response.statusText response))
      else Response.json response
  end.

Definition startProcessing := @apiCall ProcessResponse.t "API Error: ".
Definition getJobStatus := @apiCall JobStatusResponse.t "API Error: ".
Definition finalizeClips := @apiCall FinalizeResponse.t "API Error: ".
Definition applyCaptions := @apiCall ApplyResponse.t "Caption application failed: ".

(** [getClipUrl]; [API_BASE_URL] is fixed when the module loads (from the
    environment, or ["http://localhost:8000"]). *)
Definition getClipUrl (API_BASE_URL : string) (path : string) : string :=
  if String.prefix "http" path then path else (API_BASE_URL ++ path)%string.

(** ** The upload modal *)

(** [handlePlatformToggle]: the updater passed to [setSelectedPlatforms]. *)
Definition handlePlatformToggle (platform : string) (prev : list string) : list string :=
  if existsb (String.eqb platform) prev
  then List.filter (fun p => negb (String.eqb p platform)) prev
  else prev ++ [platform].

Inductive Platform := YouTube | Instagram.

Definition Platform_eqb (a b : Platform) : bool :=
  match a, b with
  | YouTube, YouTube | Instagram, Instagram => true
  | _, _ => false
  end.

(** The literal a [Platform] stands for. *)
Definition platformName (p : Platform) : string :=
  match p with
  | YouTube => "youtube"
  | Instagram => "instagram"
  end.

Module Account.
Record t := {
  platform : Platform;
  isConnected : bool;
  username : option string;
  accessToken : option string;
  userId : option string
}.
End Account.

(** The initial value of [socialAccounts]. *)
Definition initialAccounts : list Account.t :=
  [ {| Account.platform := YouTube; Account.isConnected := false;
       Account.username := None; Account.accessToken := None; Account.userId := None |};
    {| Account.platform := Instagram; Account.isConnected := false;
       Account.username := None; Account.accessToken := None; Account.userId := None |} ].

(** The tokens an authentication resolves to: [refreshToken] comes with
    YouTube, [userId] with Instagram. *)
Module Tokens.
Record t := {
  accessToken : string;
  refreshToken : option string;
  userId : option string
}.
End Tokens.

(** [handleSocialLogin], from the outcome of the awaited authentication:
    the new value of [socialAccounts]. *)
Definition handleSocialLogin (platform : Platform) (o : Outcome Tokens.t)
    (prev : list Account.t) : list Account.t :=
  match o with
  | Rejected _ => prev
  | Resolved authResult =>
      match platform with
      | YouTube =>
          map (fun account =>
                 if Platform_eqb (Account.platform account) platform then
                   {| Account.platform := Account.platform account;
                      Account.isConnected := true;
                      Account.username := Some "YouTube Channel"%string;
                      Account.accessToken := Some (Tokens.accessToken authResult);
                      Account.userId := Account.userId account |}
                 else account) prev
      | Instagram =>
          map (fun account =>
                 if Platform_eqb (Account.platform account) platform then
                   {| Account.platform := Account.platform account;
                      Account.isConnected := true;
                      Account.username := Some "Instagram Account"%string;
                      Account.accessToken := Some (Tokens.accessToken authResult);
                      Account.userId := Tokens.userId authResult |}
                 else account) prev
      end
  end.

(** ** The OAuth popup *)

(** The data of a message posted to the opener: a success with its tokens,
    an error with its text (the [type] string carries the platform), or
    anything else. *)
Inductive MessageData :=
| AuthSuccess (p : Platform) (tokens : Tokens.t)
| AuthError (p : Platform) (error : string)
| OtherMessage.

(** What [urlParams.get] returns for [code] and [error]. *)
Record UrlParams := {
  param_code : option string;
  param_error : option string
}.

(** The JSON of a token endpoint, as far as the callbacks read it. *)
Module TokenData.
Record t := {
  access_token : option string;
  refresh_token : option string;
  user_id : option string
}.
End TokenData.

(** A string that is present and not empty. *)
Definition truthyString (v : option string) : bool :=
  match v with
  | Some s => negb (String.eqb s "")
  | None => false
  end.

(** What a run of [handleCallback] did: the token requests it made and the
    message it posted, if any ([window.opener?.postMessage] posts nothing
    without an opener).  It always ends by closing the popup. *)
Record CallbackRun := {
  tokenRequests : nat;
  posted : option MessageData
}.

Definition postTo (opener : bool) (m : MessageData) : option MessageData :=
  if opener then Some m else None.

Definition thrownText (e : Thrown) : string :=
  match e with
  | ThrownError m => m
  | ThrownOther => "Unknown error"
  end.

(** [handleCallback] of the YouTube callback page; [exchange] is the
    outcome of the token request and of reading its JSON. *)
Definition youtubeCallback (params : UrlParams) (opener : bool)
    (exchange : Outcome TokenData.t) : CallbackRun :=
  if truthyString (param_error params) then
    {| tokenRequests := 0;
       posted := postTo opener (AuthError YouTube (default ""%string (param_error params))) |}
  else if truthyString (param_code params) then
    match exchange with
    | Resolved tokenData =>
        if truthyString (TokenData.access_token tokenData) then
          {| tokenRequests := 1;
             posted := postTo opener
               (AuthSuccess YouTube
                  {| Tokens.accessToken := default ""%string (TokenData.access_token tokenData);
                     Tokens.refreshToken := TokenData.refresh_token tokenData;
                     Tokens.userId := None |}) |}
        else
          {| tokenRequests := 1;
             posted := postTo opener (AuthError YouTube "No access token received") |}
    | Rejected e =>
        {| tokenRequests := 1;
           posted := postTo opener (AuthError YouTube (thrownText e)) |}
    end
  else {| tokenRequests := 0; posted := None |}.

(** [handleCallback] of the Instagram callback page: a second request
    exchanges the short-lived token for a long-lived one. *)
Definition instagramCallback (params : UrlParams) (opener : bool)
    (exchange : Outcome TokenData.t) (longLived : Outcome TokenData.t) : CallbackRun :=
  if truthyString (param_error params) then
    {| tokenRequests := 0;
       posted := postTo opener (AuthError Instagram (default ""%string (param_error params))) |}
  else if truthyString (param_code params) then
    match exchange with
    | Resolved tokenData =>
        if truthyString (TokenData.access_token tokenData) then
          match longLived with
          | Resolved longLivedTokenData =>
              {| tokenRequests := 2;
                 posted := postTo opener
                   (AuthSuccess Instagram
                      {| Tokens.accessToken :=
                           JS.or_string (TokenData.access_token longLivedTokenData)
                             (default ""%string (TokenData.access_token tokenData));
                         Tokens.refreshToken := None;
                         Tokens.userId := TokenData.user_id tokenData |}) |}
          | Rejected e =>
              {| tokenRequests := 2;
                 posted := postTo opener (AuthError Instagram (thrownText e)) |}
          end
        else
          {| tokenRequests := 1;
             posted := postTo opener (AuthError Instagram "No access token received") |}
    | Rejected e =>
        {| tokenRequests := 1;
           posted := postTo opener (AuthError Instagram (thrownText e)) |}
    end
  else {| tokenRequests := 0; posted := None |}.

(** The promise built by [authenticateYouTube] / [authenticateInstagram]:
    its state, whether the [checkClosed] interval is still installed and
    whether [messageListener] is still registered. *)
Inductive PromiseState := Pending | Settled (o : Outcome Tokens.t).

Record AuthFlow := {
  promise : PromiseState;
  checking : bool;
  listening : bool
}.

Definition authStart : AuthFlow :=
  {| promise := Pending; checking := true; listening := true |}.

(** [resolve] and [reject] act on a pending promise only. *)
Definition settle (o : Outcome Tokens.t) (p : PromiseState) : PromiseState :=
  match p with
  | Pending => Settled o
  | Settled _ => p
  end.

(** A tick of [checkClosed], with the value of [authWindow?.closed], and a
    [message] event, with its origin. *)
Inductive AuthEvent :=
| CheckClosed (closed : bool)
| Message (origin : string) (data : MessageData).

Definition authStep (platform : Platform) (selfOrigin : string) (f : AuthFlow)
    (e : AuthEvent) : AuthFlow :=
  match e with
  | CheckClosed closed =>
      if checking f && closed then
        {| promise := settle (Rejected (ThrownError "Authentication cancelled")) (promise f);
           checking := false; listening := listening f |}
      else f
  | Message origin data =>
      if negb (listening f) then f
      else if negb (String.eqb origin selfOrigin) then f
      else
        match data with
        | AuthSuccess p tokens =>
            if Platform_eqb p platform then
              {| promise := settle (Resolved tokens) (promise f);
                 checking := false; listening := false |}
            else f
        | AuthError p error =>
            if Platform_eqb p platform then
              {| promise := settle (Rejected (ThrownError error)) (promise f);
                 checking := false; listening := false |}
            else f
        | OtherMessage => f
        end
  end.

Definition authRun (platform : Platform) (selfOrigin : string) (f : AuthFlow)
    (es : list AuthEvent) : AuthFlow :=
  fold_left (authStep platform selfOrigin) es f.

(** The popup seen from the opener: the message of the callback, if any,
    arrives from the opener's own origin, then the popup is found closed. *)
Definition popupEvents (selfOrigin : string) (run : CallbackRun) : list AuthEvent :=
  match posted run with
  | Some m => [Message selfOrigin m; CheckClosed true]
  | None => [CheckClosed true]
  end.

(** An upstream record that also carries the path of its preview. *)
Definition rawClipAt (n : Z) (start_time end_time : Q) (url_path : string) : Raw.t :=
  {| Raw.id := Some (JS.IdNumber n); Raw.clip_id := None; Raw.title := None;
     Raw.start_time := Some start_time; Raw.end_time := Some end_time;
     Raw.duration := None; Raw.url_path := Some url_path; Raw.path := None;
     Raw.thumbnail := None; Raw.text := None; Raw.caption := None;
     Raw.hashtags := None; Raw.captions := None; Raw.captionStyle := None |}.

Definition previewClips : list Raw.t :=
  [rawClipAt 1 0 10 "/clips/1.mp4"; rawClipAt 2 10 20 "/clips/2.mp4"].

(** An event the authentication of [platform] on [selfOrigin] does not react
    to: a tick that finds the popup open, a message from another origin, a
    message that is not an authentication message of that platform. *)
Definition inert (platform : Platform) (selfOrigin : string) (e : AuthEvent) : bool :=
  match e with
  | CheckClosed closed => negb closed
  | Message origin data =>
      negb (String.eqb origin selfOrigin)
      || match data with
         | AuthSuccess p _ | AuthError p _ => negb (Platform_eqb p platform)
         | OtherMessage => true
         end
  end.

(** ** [handleUploadProcess] *)

(** What [handleUploadProcess] does that is visible outside the page: the
    download it triggers, the video fetches and uploads it starts, and the
    completion line it logs, with its [successMessages]. *)
Inductive UploadAction :=
| ClickDownload (href download : string)
| FetchVideo (url : string)
| UploadToYouTube (title description : string) (tags : list string) (accessToken : string)
| UploadToInstagram (caption accessToken userId : string)
| LogCompleted (successMessages : list string).

(** [tag.startsWith('#') ? tag : `#${tag}`]. *)
Definition hashTag (tag : string) : string :=
  if String.prefix "#" tag then tag else ("#" ++ tag)%string.

Definition newline : string := String (ascii_of_nat 10) EmptyString.

(** [socialAccounts.find(acc => acc.platform === platform && acc.isConnected)]. *)
Definition findAccount (platform : string) (socialAccounts : list Account.t)
    : option Account.t :=
  List.find (fun acc => String.eqb (platformName (Account.platform acc)) platform
                        && Account.isConnected acc) socialAccounts.

(** One turn of the loop over [platforms]; [videoFetched] is the outcome of
    fetching the video file and reading its body ([Resolved ok] carries
    [videoResponse.ok]; [Rejected] is a rejection of [fetch] or of
    [blob()]).  The outcome of the upload call itself changes nothing here:
    a failure is caught and the loop goes on. *)
Definition uploadTo (API_BASE_URL : string) (clip : Clip.t)
    (socialAccounts : list Account.t) (platform : string)
    (videoFetched : Outcome bool) : list UploadAction :=
  match findAccount platform socialAccounts with
  | None => []
  | Some account =>
      if negb (truthyString (Account.accessToken account)) then []
      else
        FetchVideo (getClipUrl API_BASE_URL (Clip.path clip)) ::
        match videoFetched with
        | Rejected _ => []
        | Resolved false => []
        | Resolved true =>
            if String.eqb platform "youtube" then
              [UploadToYouTube (Clip.title clip)
                 (JS.or_string (Some (Clip.caption clip))
                    (JS.or_string (Some (Clip.text clip)) "Created with YouTube Shorts AI"))
                 (Clip.hashtags clip)
                 (default ""%string (Account.accessToken account))]
            else if String.eqb platform "instagram" && truthyString (Account.userId account) then
              [UploadToInstagram
                 (JS.or_string (Some (Clip.caption clip))
                    (JS.or_string (Some (Clip.text clip)) (Clip.title clip))
                  ++ newline ++ newline
                  ++ String.concat " " (map hashTag (Clip.hashtags clip)))
                 (default ""%string (Account.accessToken account))
                 (default ""%string (Account.userId account))]
            else []
        end
  end.

Definition successMessages (platforms : list string) (downloadMp4 : bool) : list string :=
  (if (0 <? length platforms)%nat
   then [("Uploaded to: " ++ String.concat ", " platforms)%string] else [])
  ++ (if downloadMp4 then ["MP4 downloaded"%string] else []).

(** [handleUploadProcess]; [videoFetched i] is the outcome of the fetch made
    for the platform at position [i]. *)
Definition handleUploadProcess (API_BASE_URL : string)
    (selectedClipForUpload : option Clip.t) (platforms : list string)
    (downloadMp4 : bool) (socialAccounts : list Account.t)
    (videoFetched : nat -> Outcome bool) : list UploadAction :=
  match selectedClipForUpload with
  | None => []
  | Some clip =>
      (if downloadMp4
       then [ClickDownload (getClipUrl API_BASE_URL (Clip.path clip))
               (Clip.title clip ++ ".mp4")]
       else [])
      ++ concat (imap (fun i platform =>
                         uploadTo API_BASE_URL clip socialAccounts platform (videoFetched i))
                   platforms)
      ++ (if (0 <? length (successMessages platforms downloadMp4))%nat
          then [LogCompleted (successMessages platforms downloadMp4)] else [])
  end.

(** ** Caption segments as shared objects *)

(** [saveEdit] assigns to a property of a segment object, and the array the
    modal starts from is the clip's own.  Here the segment objects live in a
    store, and an array of segments is the list of their addresses. *)
Module CaptionObjects.

Definition Store := gmap nat CaptionSegment.

Record Modal := {
  captions : list nat;
  editingIndex : option nat;
  editingText : string
}.

(** The initial state of the modal: [useState(clip.captions || [])]. *)
Definition openModal (clipCaptions : option (list nat)) : Modal :=
  {| captions := default [] clipCaptions; editingIndex := None; editingText := "" |}.

Definition startEditing (index : nat) (text : string) (m : Modal) : Modal :=
  {| captions := captions m; editingIndex := Some index; editingText := text |}.

Definition setEditingText (text : string) (m : Modal) : Modal :=
  {| captions := captions m; editingIndex := editingIndex m; editingText := text |}.

Definition cancelEdit (m : Modal) : Modal :=
  {| captions := captions m; editingIndex := None; editingText := "" |}.

Definition withText (text : string) (seg : CaptionSegment) : CaptionSegment :=
  {| seg_start := seg_start seg; seg_end := seg_end seg; seg_text := text;
     seg_confidence := seg_confidence seg |}.

(** [saveEdit]: [None] is the [TypeError] of assigning to a property of
    [undefined], when [editingIndex] is past the end of the array. *)
Definition saveEdit (store : Store) (m : Modal) : option (Store * Modal) :=
  match editingIndex m with
  | None => Some (store, m)
  | Some index =>
      let newCaptions := captions m in
      match newCaptions !! index with
      | None => None
      | Some address =>
          Some (alter (withText (editingText m)) address store,
                {| captions := newCaptions; editingIndex := None; editingText := "" |})
      end
  end.

(** The segments an array of addresses stands for. *)
Definition segments (store : Store) (addresses : list nat) : list (option CaptionSegment) :=
  map (fun a => store !! a) addresses.

End CaptionObjects.

(** ** Inputs of the upload facts *)

(** A finalized clip, and both accounts connected. *)
Definition finalClip : Clip.t := processClip "0.5" (rawClip 1 0 8).

Definition connectedAccounts : list Account.t :=
  [ {| Account.platform := YouTube; Account.isConnected := true;
       Account.username := Some "YouTube User"%string;
       Account.accessToken := Some "ya29.token"%string; Account.userId := None |};
    {| Account.platform := Instagram; Account.isConnected := true;
       Account.username := Some "Instagram User"%string;
       Account.accessToken := Some "IGQV.token"%string;
       Account.userId := Some "17841400"%string |} ].

(** ** Inputs of the caption-editing facts *)

(** Two segment objects at addresses 0 and 1, and the array of a clip that
    holds both. *)
Definition segmentStore : CaptionObjects.Store :=
  list_to_map (zip [0%nat; 1%nat] mockCaptions).

Definition clipCaptionArray : list nat := [0%nat; 1%nat].

(** The page showing three clips of which the earliest starts at 30 s, the
    second being selected. *)
Definition offsetClips : list Raw.t := [rawClip 1 30 40; rawClip 2 40 50; rawClip 3 60 90].

Definition offsetPage : State := setCurrentClipIndex 1%nat (ingestLoaded offsetClips).

(** * Facts *)

(** ** [Math.max] and [Math.min] over a spread list *)

Section MaxMin.

Implicit Types (x y b : Q) (xs : list Q).

Lemma Math_max_ge_init xs : forall x, x <= JS.Math_max x xs.
Proof.
  unfold JS.Math_max. induction xs as [|a xs IH]; intros x; simpl.
  - lra.
  - specialize (IH (Qmax x a)). pose proof (Q.le_max_l x a). lra.
Qed.

Lemma Math_max_ge_elem xs : forall x y, In y xs -> y <= JS.Math_max x xs.
Proof.
  unfold JS.Math_max. induction xs as [|a xs IH]; intros x y Hin; simpl in *.
  - contradiction.
  - destruct Hin as [-> | Hin].
    + pose proof (Math_max_ge_init xs (Qmax x y)) as H. unfold JS.Math_max in H.
      pose proof (Q.le_max_r x y). lra.
    + now apply IH.
Qed.

Lemma Math_max_le xs : forall x b,
  x <= b -> (forall y, In y xs -> y <= b) -> JS.Math_max x xs <= b.
Proof.
  unfold JS.Math_max. induction xs as [|a xs IH]; intros x b Hx Hall; simpl in *.
  - exact Hx.
  - apply IH.
    + apply Q.max_lub; [exact Hx | apply Hall; now left].
    + intros y Hy. apply Hall. now right.
Qed.

Lemma Math_min_le_init xs : forall x, JS.Math_min x xs <= x.
Proof.
  unfold JS.Math_min. induction xs as [|a xs IH]; intros x; simpl.
  - lra.
  - specialize (IH (Qmin x a)). pose proof (Q.le_min_l x a). lra.
Qed.

Lemma Math_min_le_elem xs : forall x y, In y xs -> JS.Math_min x xs <= y.
Proof.
  unfold JS.Math_min. induction xs as [|a xs IH]; intros x y Hin; simpl in *.
  - contradiction.
  - destruct Hin as [-> | Hin].
    + pose proof (Math_min_le_init xs (Qmin x y)) as H. unfold JS.Math_min in H.
      pose proof (Q.le_min_r x y). lra.
    + now apply IH.
Qed.

Lemma Math_min_ge xs : forall x b,
  b <= x -> (forall y, In y xs -> b <= y) -> b <= JS.Math_min x xs.
Proof.
  unfold JS.Math_min. induction xs as [|a xs IH]; intros x b Hx Hall; simpl in *.
  - exact Hx.
  - apply IH.
    + apply Q.min_glb; [exact Hx | apply Hall; now left].
    + intros y Hy. apply Hall. now right.
Qed.

End MaxMin.

(** ** Rounding to the nearest double *)

Lemma two_pow_pos e : 0 < 2 ^ e.
Proof. apply Qpower_0_lt. reflexivity. Qed.

Lemma two_pow_Z n : (0 <= n)%Z -> inject_Z (2 ^ n) == 2 ^ n.
Proof. intros H. now rewrite Zpower_Qpower. Qed.

Lemma two_pow_le n m : (n <= m)%Z -> 2 ^ n <= 2 ^ m.
Proof. intros H. apply Qpower_le_compat_l; [exact H | discriminate]. Qed.

Lemma two_pow_lt_inv n m : 2 ^ n < 2 ^ m -> (n < m)%Z.
Proof. intros H. apply (Qpower_lt_compat_l_inv 2); [exact H | reflexivity]. Qed.

Lemma two_pow_plus n m : 2 ^ (n + m) == 2 ^ n * 2 ^ m.
Proof. apply Qpower_plus. discriminate. Qed.

(** Multiplying and dividing by a power of two. *)
Lemma div_two_pow_le x y e : x <= y -> x / 2 ^ e <= y / 2 ^ e.
Proof.
  intros H. unfold Qdiv. apply Qmult_le_compat_r; [exact H|].
  apply Qlt_le_weak, Qinv_lt_0_compat, two_pow_pos.
Qed.

Lemma ilog2_spec x : 0 < x -> 2 ^ JS.ilog2 x <= x /\ x < 2 ^ (JS.ilog2 x + 1).
Proof.
  intros Hx. unfold JS.ilog2.
  destruct x as [n d]. cbn [Qnum Qden].
  assert (Hn : (0 < n)%Z).
  { unfold Qlt in Hx. simpl in Hx. lia. }
  set (a := Z.log2 n). set (b := Z.log2 (Z.pos d)).
  destruct (Z.log2_spec n Hn) as [Ha1 Ha2]. fold a in Ha1, Ha2.
  destruct (Z.log2_spec (Z.pos d) ltac:(lia)) as [Hb1 Hb2]. fold b in Hb1, Hb2.
  assert (Ha0 : (0 <= a)%Z) by apply Z.log2_nonneg.
  assert (Hb0 : (0 <= b)%Z) by apply Z.log2_nonneg.
  assert (Hq : n # d == inject_Z n / inject_Z (Z.pos d)) by apply Qmake_Qdiv.
  assert (Hd : 0 < inject_Z (Z.pos d)) by reflexivity.
  assert (Hlo : 2 ^ (a - b - 1) < n # d).
  { rewrite Hq. apply Qlt_shift_div_l; [exact Hd|].
    apply Qlt_le_trans with (2 ^ (a - b - 1) * 2 ^ (b + 1)).
    - apply Qmult_lt_l; [apply two_pow_pos|].
      rewrite <- two_pow_Z by lia. rewrite <- Zlt_Qlt. exact Hb2.
    - rewrite <- two_pow_plus. replace (a - b - 1 + (b + 1))%Z with a by lia.
      rewrite <- two_pow_Z by lia. rewrite <- Zle_Qle. exact Ha1. }
  assert (Hhi : n # d < 2 ^ (a - b + 1)).
  { rewrite Hq. apply Qlt_shift_div_r; [exact Hd|].
    apply Qlt_le_trans with (2 ^ (a - b + 1) * 2 ^ b).
    - rewrite <- two_pow_plus. replace (a - b + 1 + b)%Z with (a + 1)%Z by lia.
      rewrite <- two_pow_Z by lia. rewrite <- Zlt_Qlt. exact Ha2.
    - apply Qmult_le_l; [apply two_pow_pos|].
      rewrite <- two_pow_Z by lia. rewrite <- Zle_Qle. exact Hb1. }
  destruct (Qle_bool (2 ^ (a - b)) (n # d)) eqn:Hc.
  - apply Qle_bool_iff in Hc. split; assumption.
  - assert (Hlt : n # d < 2 ^ (a - b)).
    { apply Qnot_le_lt. intros H. apply Qle_bool_iff in H. congruence. }
    replace (a - b - 1 + 1)%Z with (a - b)%Z by lia.
    split; [now apply Qlt_le_weak | exact Hlt].
Qed.

Lemma ilog2_unique x e : 2 ^ e <= x -> x < 2 ^ (e + 1) -> JS.ilog2 x = e.
Proof.
  intros Hlo Hhi.
  assert (Hx : 0 < x) by (eapply Qlt_le_trans; [apply (two_pow_pos e) | exact Hlo]).
  destruct (ilog2_spec x Hx) as [Hlo' Hhi'].
  assert (H1 : (JS.ilog2 x < e + 1)%Z).
  { apply two_pow_lt_inv. eapply Qle_lt_trans; eassumption. }
  assert (H2 : (e < JS.ilog2 x + 1)%Z).
  { apply two_pow_lt_inv. eapply Qle_lt_trans; eassumption. }
  lia.
Qed.

Lemma ilog2_mono x y : 0 < x -> x <= y -> (JS.ilog2 x <= JS.ilog2 y)%Z.
Proof.
  intros Hx Hxy.
  assert (Hy : 0 < y) by (eapply Qlt_le_trans; eassumption).
  destruct (ilog2_spec x Hx) as [Hlo _]. destruct (ilog2_spec y Hy) as [_ Hhi].
  assert (H : (JS.ilog2 x < JS.ilog2 y + 1)%Z).
  { apply two_pow_lt_inv. eapply Qle_lt_trans; [exact Hlo|].
    eapply Qle_lt_trans; eassumption. }
  lia.
Qed.

(** Rounding to the nearest integer, ties to even. *)
Lemma roundHalfEven_comp x y : x == y -> JS.roundHalfEven x = JS.roundHalfEven y.
Proof.
  intros H. unfold JS.roundHalfEven.
  rewrite (Qfloor_comp x y H).
  assert (Hc : Qcompare (x - inject_Z (Qfloor y)) (1 # 2) = Qcompare (y - inject_Z (Qfloor y)) (1 # 2)).
  { apply Qcompare_comp; [now rewrite H | reflexivity]. }
  now rewrite Hc.
Qed.

Lemma roundHalfEven_cases x :
  (JS.roundHalfEven x = Qfloor x /\ x - inject_Z (Qfloor x) <= 1 # 2) \/
  (JS.roundHalfEven x = (Qfloor x + 1)%Z /\ 1 # 2 <= x - inject_Z (Qfloor x)).
Proof.
  unfold JS.roundHalfEven.
  destruct (Qcompare (x - inject_Z (Qfloor x)) (1 # 2)) eqn:Hc.
  - apply Qeq_alt in Hc. destruct (Z.even (Qfloor x)); [left | right]; split; auto; lra.
  - apply Qlt_alt in Hc. left. split; [reflexivity | lra].
  - apply Qgt_alt in Hc. right. split; [reflexivity | lra].
Qed.

Lemma roundHalfEven_Z z : JS.roundHalfEven (inject_Z z) = z.
Proof.
  unfold JS.roundHalfEven. rewrite Qfloor_Z.
  destruct (Qcompare (inject_Z z - inject_Z z) (1 # 2)) eqn:Hc.
  - apply Qeq_alt in Hc. exfalso. lra.
  - reflexivity.
  - apply Qgt_alt in Hc. exfalso. lra.
Qed.

Lemma roundHalfEven_mono x y : x <= y -> (JS.roundHalfEven x <= JS.roundHalfEven y)%Z.
Proof.
  intros Hxy. pose proof (Qfloor_resp_le x y Hxy) as Hf.
  destruct (Z.eq_dec (Qfloor x) (Qfloor y)) as [He | Hne].
  - unfold JS.roundHalfEven. rewrite <- He.
    destruct (Qcompare (x - inject_Z (Qfloor x)) (1 # 2)) eqn:Hcx;
      [apply Qeq_alt in Hcx | apply Qlt_alt in Hcx | apply Qgt_alt in Hcx];
      (destruct (Qcompare (y - inject_Z (Qfloor x)) (1 # 2)) eqn:Hcy;
       [apply Qeq_alt in Hcy | apply Qlt_alt in Hcy | apply Qgt_alt in Hcy]);
      try (destruct (Z.even (Qfloor x))); try lia; exfalso; lra.
  - destruct (roundHalfEven_cases x) as [[-> _] | [-> _]];
      destruct (roundHalfEven_cases y) as [[-> _] | [-> _]]; lia.
Qed.

Lemma roundHalfEven_ge z x : inject_Z z <= x -> (z <= JS.roundHalfEven x)%Z.
Proof. intros H. rewrite <- (roundHalfEven_Z z). now apply roundHalfEven_mono. Qed.

Lemma roundHalfEven_le z x : x <= inject_Z z -> (JS.roundHalfEven x <= z)%Z.
Proof. intros H. rewrite <- (roundHalfEven_Z z). now apply roundHalfEven_mono. Qed.

(** The nearest double of a positive number. *)
Lemma nearest_nonneg x : 0 < x -> 0 <= JS.nearest x.
Proof.
  intros Hx. unfold JS.nearest.
  apply Qmult_le_0_compat; [|apply Qlt_le_weak, two_pow_pos].
  change 0 with (inject_Z 0). rewrite <- Zle_Qle. apply roundHalfEven_ge.
  apply Qle_shift_div_l; [apply two_pow_pos|].
  change (inject_Z 0) with 0. rewrite Qmult_0_l. lra.
Qed.

Lemma nearest_mono x y : 0 < x -> x <= y -> JS.nearest x <= JS.nearest y.
Proof.
  intros Hx Hxy.
  assert (Hy : 0 < y) by (eapply Qlt_le_trans; eassumption).
  pose proof (ilog2_mono x y Hx Hxy) as Hl.
  unfold JS.nearest.
  set (ex := Z.max (JS.ilog2 x - 52) (-1074)).
  set (ey := Z.max (JS.ilog2 y - 52) (-1074)).
  destruct (Z.eq_dec ex ey) as [He | Hne].
  - rewrite <- He. apply Qmult_le_compat_r; [|apply Qlt_le_weak, two_pow_pos].
    rewrite <- Zle_Qle. apply roundHalfEven_mono. now apply div_two_pow_le.
  - assert (Hlt : (ex < ey)%Z) by lia.
    assert (Hey : ey = (JS.ilog2 y - 52)%Z) by lia.
    destruct (ilog2_spec x Hx) as [_ Hxhi]. destruct (ilog2_spec y Hy) as [Hylo _].
    apply Qle_trans with (2 ^ 53 * 2 ^ ex).
    + apply Qmult_le_compat_r; [|apply Qlt_le_weak, two_pow_pos].
      rewrite <- (two_pow_Z 53) by lia. rewrite <- Zle_Qle.
      apply roundHalfEven_le. rewrite two_pow_Z by lia.
      apply Qle_shift_div_r; [apply two_pow_pos|].
      rewrite <- two_pow_plus. apply Qlt_le_weak.
      eapply Qlt_le_trans; [exact Hxhi|]. apply two_pow_le. lia.
    + apply Qle_trans with (2 ^ 52 * 2 ^ ey).
      * rewrite <- !two_pow_plus. apply two_pow_le. lia.
      * apply Qmult_le_compat_r; [|apply Qlt_le_weak, two_pow_pos].
        rewrite <- (two_pow_Z 52) by lia. rewrite <- Zle_Qle.
        apply roundHalfEven_ge. rewrite two_pow_Z by lia.
        apply Qle_shift_div_l; [apply two_pow_pos|].
        rewrite <- two_pow_plus. replace (52 + ey)%Z with (JS.ilog2 y) by lia.
        exact Hylo.
Qed.

(** A number [z * 2^e] with [0 < z < 2^53] and [e >= -1074] is a double. *)
Lemma nearest_exact x z e :
  (0 < z < 2 ^ 53)%Z -> (-1074 <= e)%Z -> x == inject_Z z * 2 ^ e ->
  JS.nearest x == x.
Proof.
  intros [Hz0 Hz] He Hx.
  set (l := Z.log2 z).
  destruct (Z.log2_spec z Hz0) as [Hl1 Hl2]. fold l in Hl1, Hl2.
  assert (Hl0 : (0 <= l)%Z) by apply Z.log2_nonneg.
  assert (Hl : (l <= 52)%Z).
  { assert (H : (2 ^ l < 2 ^ 53)%Z) by lia.
    apply Z.pow_lt_mono_r_iff in H; lia. }
  assert (Hlog : JS.ilog2 x = (l + e)%Z).
  { apply ilog2_unique; rewrite Hx.
    - rewrite two_pow_plus. apply Qmult_le_compat_r; [|apply Qlt_le_weak, two_pow_pos].
      rewrite <- two_pow_Z by lia. now rewrite <- Zle_Qle.
    - replace (l + e + 1)%Z with (l + 1 + e)%Z by lia. rewrite two_pow_plus.
      apply Qmult_lt_r; [apply two_pow_pos|].
      rewrite <- two_pow_Z by lia. now rewrite <- Zlt_Qlt. }
  unfold JS.nearest. rewrite Hlog.
  set (s := Z.max (l + e - 52) (-1074)).
  assert (Hs : (s <= e)%Z) by lia.
  assert (Hint : x / 2 ^ s == inject_Z (z * 2 ^ (e - s))).
  { rewrite Hx, inject_Z_mult, two_pow_Z by lia.
    rewrite Qpower_minus by discriminate. field.
    apply Qpower_not_0. discriminate. }
  rewrite (roundHalfEven_comp _ _ Hint), roundHalfEven_Z.
  rewrite Hx, inject_Z_mult, two_pow_Z by lia.
  rewrite Qpower_minus by discriminate. field.
  apply Qpower_not_0. discriminate.
Qed.

(** [double] by sign. *)
Lemma double_pos x : 0 < x -> JS.double x == JS.nearest x.
Proof.
  intros Hx. unfold JS.double. destruct x as [[|p|p] d].
  - discriminate.
  - apply Qred_correct.
  - discriminate.
Qed.

Lemma double_neg x : x < 0 -> JS.double x == - JS.nearest (- x).
Proof.
  intros Hx. unfold JS.double. destruct x as [[|p|p] d].
  - discriminate.
  - discriminate.
  - apply Qred_correct.
Qed.

Lemma double_zero x : x == 0 -> JS.double x = 0.
Proof.
  intros Hx. unfold JS.double. destruct x as [[|p|p] d]; [reflexivity| |];
    unfold Qeq in Hx; simpl in Hx; lia.
Qed.

Lemma double_nonneg x : 0 <= x -> 0 <= JS.double x.
Proof.
  intros Hx. destruct (Qlt_le_dec 0 x) as [Hp | Hn].
  - rewrite double_pos by exact Hp. now apply nearest_nonneg.
  - rewrite double_zero by lra. lra.
Qed.

Lemma double_nonpos x : x <= 0 -> JS.double x <= 0.
Proof.
  intros Hx. destruct (Qlt_le_dec x 0) as [Hn | Hp].
  - rewrite double_neg by exact Hn.
    assert (H : 0 <= JS.nearest (- x)) by (apply nearest_nonneg; lra). lra.
  - rewrite double_zero by lra. lra.
Qed.

(** Rounding is monotone. *)
Lemma double_mono x y : x <= y -> JS.double x <= JS.double y.
Proof.
  intros Hxy.
  destruct (Qlt_le_dec 0 x) as [Hx | Hx].
  - assert (Hy : 0 < y) by lra.
    rewrite !double_pos by assumption. now apply nearest_mono.
  - destruct (Qlt_le_dec 0 y) as [Hy | Hy].
    + apply Qle_trans with 0; [now apply double_nonpos | apply double_nonneg; lra].
    + destruct (Qlt_le_dec y 0) as [Hy' | Hy'].
      * assert (Hx' : x < 0) by lra.
        rewrite !double_neg by assumption.
        assert (H : JS.nearest (- y) <= JS.nearest (- x)) by (apply nearest_mono; lra).
        lra.
      * rewrite (double_zero y) by lra. now apply double_nonpos.
Qed.

(** The doubles: the numbers [z * 2^e] with [|z| < 2^53] and [e >= -1074]. *)
Lemma isDouble_scaled x z e :
  (Z.abs z < 2 ^ 53)%Z -> (-1074 <= e)%Z -> x == inject_Z z * 2 ^ e -> JS.isDouble x.
Proof.
  intros Hz He Hx. unfold JS.isDouble.
  destruct (Z.lt_trichotomy z 0) as [Hn | [-> | Hp]].
  - assert (Hx0 : x < 0).
    { rewrite Hx. assert (inject_Z z < 0) by (change 0 with (inject_Z 0); rewrite <- Zlt_Qlt; lia).
      pose proof (two_pow_pos e). nra. }
    rewrite double_neg by exact Hx0.
    rewrite (nearest_exact (- x) (- z) e); [ring | lia | exact He |].
    rewrite Hx, inject_Z_opp. ring.
  - assert (Hx0 : x == 0) by (rewrite Hx; simpl; ring).
    rewrite double_zero by exact Hx0. now rewrite Hx0.
  - assert (Hx0 : 0 < x).
    { rewrite Hx. assert (0 < inject_Z z) by (change 0 with (inject_Z 0); rewrite <- Zlt_Qlt; lia).
      pose proof (two_pow_pos e). nra. }
    rewrite double_pos by exact Hx0.
    apply (nearest_exact x z e); [lia | exact He | exact Hx].
Qed.

Lemma isDouble_Z z : (Z.abs z < 2 ^ 53)%Z -> JS.isDouble (inject_Z z).
Proof.
  intros Hz. apply (isDouble_scaled _ z 0); [exact Hz | lia |].
  change (2 ^ 0) with 1. ring.
Qed.


Lemma double_ge a x : JS.isDouble a -> a <= x -> a <= JS.double x.
Proof.
  intros Ha Hax. unfold JS.isDouble in Ha.
  apply Qle_trans with (JS.double a); [lra | now apply double_mono].
Qed.

Lemma double_le b x : JS.isDouble b -> x <= b -> JS.double x <= b.
Proof.
  intros Hb Hxb. unfold JS.isDouble in Hb.
  apply Qle_trans with (JS.double b); [now apply double_mono | lra].
Qed.



Lemma in_filter_from {A} (p : A -> nat -> bool) (l : list A) :
  forall n x, In x (JS.filter_from p n l) <->
              exists j, l !! j = Some x /\ p x (n + j)%nat = true.
Proof.
  induction l as [|a l IH]; intros n x; simpl.
  - split; [contradiction | intros (j & Hj & _); destruct j; discriminate].
  - destruct (p a n) eqn:Hp; simpl; rewrite IH; split.
    + intros [-> | (j & Hj & Hpj)].
      * exists 0%nat. rewrite Nat.add_0_r. now split.
      * exists (S j). rewrite Nat.add_succ_r. now split.
    + intros ([|j] & Hj & Hpj); simpl in Hj.
      * left. congruence.
      * right. exists j. rewrite Nat.add_succ_r in Hpj. now split.
    + intros (j & Hj & Hpj). exists (S j). rewrite Nat.add_succ_r. now split.
    + intros ([|j] & Hj & Hpj); simpl in Hj.
      * injection Hj as <-. rewrite Nat.add_0_r in Hpj. congruence.
      * exists j. rewrite Nat.add_succ_r in Hpj. now split.
Qed.

(** ** The bounds computed by [handleMouseMove] *)

(** Case analysis on every [Qmax]/[Qmin] in sight, then linear arithmetic. *)
Ltac minmax :=
  repeat match goal with
  | |- context [Qmax ?a ?b] =>
      let m := fresh "m" in
      pose proof (Q.max_spec a b); set (m := Qmax a b) in *; clearbody m
  | |- context [Qmin ?a ?b] =>
      let m := fresh "m" in
      pose proof (Q.min_spec a b); set (m := Qmin a b) in *; clearbody m
  | H : context [Qmax ?a ?b] |- _ =>
      let m := fresh "m" in
      pose proof (Q.max_spec a b); set (m := Qmax a b) in *; clearbody m
  | H : context [Qmin ?a ?b] |- _ =>
      let m := fresh "m" in
      pose proof (Q.min_spec a b); set (m := Qmin a b) in *; clearbody m
  end;
  lra.

Section Bounds.

Variables (clipIndex : nat) (clips : list EditingClip) (clip : EditingClip).
Hypothesis Hclip : clips !! clipIndex = Some clip.

Let others := otherClips clipIndex clips.

Lemma in_otherClips x :
  In x (otherClips clipIndex clips) <-> exists j, clips !! j = Some x /\ j <> clipIndex.
Proof.
  unfold otherClips, JS.Array_filter. rewrite in_filter_from. simpl.
  split; intros (j & Hj & Hne); exists j; split; auto.
  - intros ->. rewrite Nat.eqb_refl in Hne. discriminate.
  - apply negb_true_iff. now apply Nat.eqb_neq.
Qed.


Lemma minBound_ge_end j x :
  clips !! j = Some x -> j <> clipIndex -> editedEnd x <= editedStart clip ->
  editedEnd x <= minBound clip others.
Proof.
  intros Hj Hne Hle. apply Math_max_ge_elem.
  apply filter_In. split.
  - apply in_map. apply in_otherClips. eauto.
  - now apply Qle_bool_iff.
Qed.



Lemma maxBound_le_start d j x :
  clips !! j = Some x -> j <> clipIndex -> editedEnd clip <= editedStart x ->
  maxBound d clip others <= editedStart x.
Proof.
  intros Hj Hne Hle. apply Math_min_le_elem.
  apply filter_In. split.
  - apply in_map. apply in_otherClips. eauto.
  - now apply Qle_bool_iff.
Qed.


(** The bounds when a nearest neighbour on either side is known. *)
Lemma minBound_nearest j x :
  clips !! j = Some x -> j <> clipIndex -> editedEnd x <= editedStart clip ->
  0 <= editedEnd x ->
  (forall j' y, clips !! j' = Some y -> j' <> clipIndex ->
                editedEnd y <= editedStart clip -> editedEnd y <= editedEnd x) ->
  minBound clip others == editedEnd x.
Proof.
  intros Hj Hne Hle H0 Hnear. apply Qle_antisym.
  - apply Math_max_le; [exact H0|].
    intros y Hy. apply filter_In in Hy as [Hy Hb].
    apply in_map_iff in Hy as (c & <- & Hc).
    apply in_otherClips in Hc as (j' & Hj' & Hne').
    apply (Hnear j' c); auto. now apply Qle_bool_iff.
  - now apply (minBound_ge_end j).
Qed.

Lemma maxBound_nearest d j x :
  clips !! j = Some x -> j <> clipIndex -> editedEnd clip <= editedStart x ->
  editedStart x <= d ->
  (forall j' y, clips !! j' = Some y -> j' <> clipIndex ->
                editedEnd clip <= editedStart y -> editedStart x <= editedStart y) ->
  maxBound d clip others == editedStart x.
Proof.
  intros Hj Hne Hle Hd Hnear. apply Qle_antisym.
  - now apply (maxBound_le_start d j).
  - apply Math_min_ge; [exact Hd|].
    intros y Hy. apply filter_In in Hy as [Hy Hb].
    apply in_map_iff in Hy as (c & <- & Hc).
    apply in_otherClips in Hc as (j' & Hj' & Hne').
    apply (Hnear j' c); auto. now apply Qle_bool_iff.
Qed.




End Bounds.

(** ** One [mousemove] *)

(** What [handleMouseMove] hands to [setEditingClips]. *)
Lemma handleMouseMove_Some k ref x l' :
  handleMouseMove k ref x = Some l' ->
  exists w clip,
    ref = Some w /\
    cl_editingClips k !! cl_clipIndex k = Some clip /\
    l' = <[cl_clipIndex k :=
             draggedClip (cl_dragType k)
               (minBound clip (otherClips (cl_clipIndex k) (cl_editingClips k)))
               (maxBound (cl_videoDuration k) clip (otherClips (cl_clipIndex k) (cl_editingClips k)))
               (cl_dragStartValue k + deltaTime k w x) clip]> (cl_editingClips k).
Proof.
  unfold handleMouseMove. intros H.
  destruct ref as [w|]; [|discriminate].
  destruct (cl_editingClips k !! cl_clipIndex k) as [clip|] eqn:Hc; [|discriminate].
  injection H as <-. now exists w, clip.
Qed.

(** Only the clip at [clipIndex] is rewritten. *)
Lemma handleMouseMove_others k ref x l' j :
  handleMouseMove k ref x = Some l' -> j <> cl_clipIndex k ->
  l' !! j = cl_editingClips k !! j.
Proof.
  intros H Hne. apply handleMouseMove_Some in H as (w & clip & _ & _ & ->).
  apply list_lookup_insert_ne. congruence.
Qed.

Lemma handleMouseMove_length k ref x l' :
  handleMouseMove k ref x = Some l' -> length l' = length (cl_editingClips k).
Proof.
  intros H. apply handleMouseMove_Some in H as (w & clip & _ & _ & ->).
  apply length_insert.
Qed.

Lemma Disjoint_sym a b : Disjoint a b -> Disjoint b a.
Proof. unfold Disjoint. tauto. Qed.




(** ** Sequences of drag events *)

(** The handlers other than [handleMouseMove] leave the clips alone, and a
    pressed handler captures the clips of the state it was pressed in. *)
Lemma handleTimelineMouseDown_Some s ref x dt i s' k :
  handleTimelineMouseDown s ref x dt i = Some (s', k) ->
  editingClips s' = editingClips s /\ videoDuration s' = videoDuration s /\
  dragStartX s' = x /\
  k = {| cl_dragType := dt; cl_clipIndex := i;
         cl_editingClips := editingClips s;
         cl_dragStartX := dragStartX s;
         cl_dragStartValue := dragStartValue s;
         cl_videoDuration := videoDuration s |} /\
  i = currentClipIndex s.
Proof.
  unfold handleTimelineMouseDown. intros H.
  destruct ref as [w|]; [|discriminate].
  destruct (Nat.eqb_spec i (currentClipIndex s)) as [Hi|Hi]; simpl in H; [|discriminate].
  injection H as <- <-.
  destruct (editingClips s !! i) as [c|]; [destruct dt|]; simpl; auto.
Qed.

Lemma navigateToClip_clips s refs i :
  editingClips (navigateToClip s refs i) = editingClips s /\
  videoDuration (navigateToClip s refs i) = videoDuration s.
Proof.
  unfold navigateToClip.
  destruct (editingClips s !! i); [destruct refs|]; simpl; auto.
Qed.

(** A property of clip collections that [handleMouseMove] maintains holds of
    the page after every event, once it holds of the state and of the
    clips captured by each registered listener. *)
Section PageInvariant.

Variable P : Q -> list EditingClip -> Prop.
Hypothesis P_move : forall k ref x l',
  handleMouseMove k ref x = Some l' ->
  P (cl_videoDuration k) (cl_editingClips k) -> P (cl_videoDuration k) l'.

Lemma deliver_PageInv ref x ks : forall s,
  P (videoDuration s) (editingClips s) ->
  Forall (fun k => cl_videoDuration k = videoDuration s /\
                   P (cl_videoDuration k) (cl_editingClips k)) ks ->
  let s' := fold_left (deliverMove ref x) ks s in
  P (videoDuration s') (editingClips s') /\ videoDuration s' = videoDuration s.
Proof.
  induction ks as [|k ks IH]; intros s Hs Hks; simpl.
  - auto.
  - apply Forall_cons in Hks as [[Hd Hk] Hks].
    assert (Hstep : P (videoDuration (deliverMove ref x s k))
                      (editingClips (deliverMove ref x s k)) /\
                    videoDuration (deliverMove ref x s k) = videoDuration s).
    { unfold deliverMove.
      destruct (handleMouseMove k ref x) as [l'|] eqn:Hm; simpl; [|auto].
      split; [|reflexivity]. rewrite <- Hd. eapply P_move; eauto. }
    destruct Hstep as [Hp Hv].
    destruct (IH (deliverMove ref x s k)) as [Hp' Hv'].
    + exact Hp.
    + rewrite Hv. exact Hks.
    + split; [exact Hp' | congruence].
Qed.

Lemma dispatch_PageInv ref p e : PageInv P p -> PageInv P (dispatch ref p e).
Proof.
  intros [Hs Hks]. destruct e as [x dt i | x | | | i]; simpl.
  - destruct (handleTimelineMouseDown (state p) ref x dt i) as [[s' k]|] eqn:Hd.
    + apply handleTimelineMouseDown_Some in Hd as (Hc & Hv & _ & -> & _).
      split; simpl.
      * rewrite Hc, Hv. exact Hs.
      * rewrite Hv. apply Forall_app. split; [exact Hks|].
        apply Forall_cons. split; [|apply Forall_nil_2]. simpl. auto.
    + split; assumption.
  - destruct (deliver_PageInv ref x (listeners p) (state p) Hs Hks) as [Hp Hv].
    split; simpl; [exact Hp|]. rewrite Hv. exact Hks.
  - destruct (listeners p) eqn:Hl.
    + split; [exact Hs | rewrite Hl; apply Forall_nil_2].
    + split; simpl; [exact Hs | apply Forall_nil_2].
  - split; assumption.
  - destruct (navigateToClip_clips (state p) (bool_decide (is_Some ref)) i) as [Hc Hv].
    split; simpl; rewrite ?Hc, ?Hv; assumption.
Qed.

Lemma run_PageInv ref es : forall p, PageInv P p -> PageInv P (run ref p es).
Proof.
  unfold run. induction es as [|e es IH]; intros p Hp; simpl.
  - exact Hp.
  - apply IH. now apply dispatch_PageInv.
Qed.

End PageInvariant.

(** The same for a property that only trims maintain, along events none of
    which starts a move: every registered listener is then a trim. *)
Section TrimInvariant.

Variable P : Q -> list EditingClip -> Prop.
Hypothesis P_trim : forall k ref x l',
  cl_dragType k <> DragMove ->
  handleMouseMove k ref x = Some l' ->
  P (cl_videoDuration k) (cl_editingClips k) -> P (cl_videoDuration k) l'.




End TrimInvariant.

(** ** Closed instances *)

Lemma disjointb_sound a b : disjointb a b = true -> Disjoint a b.
Proof.
  unfold disjointb, Disjoint. intros H.
  apply orb_true_iff in H as [H|H]; apply Qle_bool_iff in H; auto.
Qed.

Lemma no_overlapb_sound clips : no_overlapb clips = true -> NoOverlap clips.
Proof.
  induction clips as [|a l IH]; intros H i j ci cj Hij Hi Hj.
  - destruct i; discriminate.
  - simpl in H. apply andb_true_iff in H as [Ha Hl].
    assert (Hhead : forall n c, l !! n = Some c -> Disjoint a c).
    { intros n c Hn. apply disjointb_sound.
      apply (proj1 (forallb_forall _ _) Ha).
      apply list_elem_of_In. eapply list_elem_of_lookup_2; eauto. }
    destruct i as [|i], j as [|j]; simpl in Hi, Hj.
    + congruence.
    + injection Hi as <-. eauto.
    + injection Hj as <-. apply Disjoint_sym. eauto.
    + apply (IH Hl i j); auto.
Qed.

Lemma in_boundsb_sound d c : in_boundsb d c = true -> InBounds d c.
Proof.
  unfold in_boundsb, InBounds. intros H.
  apply andb_true_iff in H as [H H3]. apply andb_true_iff in H as [H1 H2].
  apply Qle_bool_iff in H1. apply Qle_bool_iff in H3.
  apply negb_true_iff in H2.
  repeat split; auto.
  apply Qnot_le_lt. intros Hle. apply Qle_bool_iff in Hle. congruence.
Qed.

Lemma forallb_elem_of {A} (f : A -> bool) (P : A -> Prop) (l : list A) :
  (forall x, f x = true -> P x) -> forallb f l = true -> forall x, x ∈ l -> P x.
Proof.
  intros Hf Hall x Hx. apply Hf.
  apply (proj1 (forallb_forall _ _) Hall). now apply list_elem_of_In.
Qed.

(** ** No overlap (C1) *)


(** A move also breaks it on clips that start at or after 0.  The moved
    clip ends at [newStart + clipDuration], a sum of doubles.  With clips at
    [0, 1.2) and [3.4, 10), moving the first as far right as it goes gives
    [newStart = 3.4 - 1.2 = 2.2] and the end [2.2 + 1.2], which is the next
    double above 3.4: the two clips now overlap. *)
Example move_rounding_overlaps :
  let before := editingClips (ingestLoaded roundingClips) in
  let after := editingClips (state (run (Some 1200) (idle (ingestLoaded roundingClips))
                                      [MouseDown 0 DragMove 0; MouseMove 1200])) in
  NoOverlap before /\ NonNegative before /\
  (editedStart <$> after !! 0%nat) = Some (JS.double (11 # 5)) /\
  (editedEnd <$> after !! 0%nat) = Some (JS.add (JS.double (11 # 5)) (JS.double (6 # 5))) /\
  (editedStart <$> after !! 1%nat) = Some (JS.double (17 # 5)) /\
  JS.double (17 # 5) < JS.add (JS.double (11 # 5)) (JS.double (6 # 5)) /\
  (NoOverlap after -> False).
Proof.
  intros before after. split; [|split; [|split; [|split; [|split; [|split]]]]].
  - apply no_overlapb_sound. vm_compute. reflexivity.
  - unfold NonNegative.
    apply (forallb_elem_of (fun c => Qle_bool 0 (editedStart c))
                           (fun c => 0 <= editedStart c)).
    + intros c Hc. now apply Qle_bool_iff.
    + vm_compute. reflexivity.
  - vm_compute. reflexivity.
  - vm_compute. reflexivity.
  - vm_compute. reflexivity.
  - vm_compute. reflexivity.
  - intros Hno.
    destruct (Hno 0%nat 1%nat _ _ ltac:(discriminate) eq_refl eq_refl) as [H|H];
      vm_compute in H; apply H; reflexivity.
Qed.



(** ** Clamping at a neighbour (C2) *)

(** C2, as stated, fails.  With two clips at [200, 210) and [210, 220) on
    the 120-second timeline, dragging the right edge of the first far to
    the right (to x = 2150 on a 1200-pixel timeline, a request beyond 210)
    puts that edge at 120, not at the neighbour's start 210. *)
Lemma right_edge_lands_on_timeline_end :
  let after := editingClips (state (run (Some 1200) (idle (ingestLoaded lateClips))
                                      [MouseDown 100 DragEnd 0; MouseMove 2150])) in
  (editedStart <$> (editingClips (ingestLoaded lateClips) !! 1%nat)) = Some 210 /\
  exists c, after !! 0%nat = Some c /\ editedEnd c = 120 /\ (editedEnd c == 210 -> False).
Proof.
  intros after. split; [reflexivity|].
  eexists. split; [reflexivity|]. split; [reflexivity|].
  intros H. vm_compute in H. discriminate.
Qed.

(** C2 (amended).  For one [mousemove] of a trim, with [request] the value
    [dragStartValue + deltaTime] asked for:
    - dragging the right edge never takes it past the start of a clip that
      follows, and when the request is at or beyond the start of the nearest
      following clip and that start is within the timeline duration, the
      edge lands exactly on it, the clip's start being unchanged;
    - dragging the left edge never takes it before the end of a clip that
      precedes, and when the request is at or before the end of the nearest
      preceding clip and that end is not negative, the edge lands exactly on
      it, the clip's end being unchanged;
    - every other clip is unchanged.
    (A neighbour's edge outside [0, timelineDuration] is not reached: the
    boundary stops at the timeline limit.) *)
Theorem trim_clamps_at_neighbour (k : MoveClosure) (w x : Q)
    (l' : list EditingClip) (clip : EditingClip) (j : nat) (n : EditingClip) :
  handleMouseMove k (Some w) x = Some l' ->
  cl_editingClips k !! cl_clipIndex k = Some clip ->
  cl_editingClips k !! j = Some n -> j <> cl_clipIndex k ->
  let request := cl_dragStartValue k + deltaTime k w x in
  exists c', l' !! cl_clipIndex k = Some c' /\
    (cl_dragType k = DragEnd ->
       editedStart c' = editedStart clip /\
       (editedEnd clip <= editedStart n -> editedEnd c' <= editedStart n) /\
       (NearestAfter (cl_editingClips k) (cl_clipIndex k) clip j n ->
        editedStart n <= request -> editedStart n <= cl_videoDuration k ->
        editedEnd c' == editedStart n)) /\
    (cl_dragType k = DragStart ->
       editedEnd c' = editedEnd clip /\
       (editedEnd n <= editedStart clip -> editedEnd n <= editedStart c') /\
       (NearestBefore (cl_editingClips k) (cl_clipIndex k) clip j n ->
        request <= editedEnd n -> 0 <= editedEnd n ->
        editedStart c' == editedEnd n)) /\
    (forall j', j' <> cl_clipIndex k -> l' !! j' = cl_editingClips k !! j').
Proof.
  intros Hm Hclip Hn Hne request.
  pose proof (handleMouseMove_others k (Some w) x l') as Hothers.
  apply handleMouseMove_Some in Hm as (w' & clip' & Hw & Hclip' & ->).
  injection Hw as <-. rewrite Hclip in Hclip'. injection Hclip' as <-.
  pose proof (lookup_lt_Some _ _ _ Hclip) as Hlen.
  eexists. split; [apply list_lookup_insert_eq; exact Hlen|].
  fold request.
  set (others := otherClips (cl_clipIndex k) (cl_editingClips k)).
  split; [|split].
  - intros ->. simpl. split; [reflexivity|]. split.
    + intros Hafter.
      pose proof (maxBound_le_start (cl_clipIndex k) (cl_editingClips k) clip
                    (cl_videoDuration k) j n Hn Hne Hafter) as Hhi.
      fold others in Hhi. minmax.
    + intros (_ & _ & Hafter & Hnear) Hreq Hd.
      pose proof (maxBound_nearest (cl_clipIndex k) (cl_editingClips k) clip
                    (cl_videoDuration k) j n Hn Hne Hafter Hd Hnear) as Hhi.
      fold others in Hhi. minmax.
  - intros ->. simpl. split; [reflexivity|]. split.
    + intros Hbefore.
      pose proof (minBound_ge_end (cl_clipIndex k) (cl_editingClips k) clip
                    j n Hn Hne Hbefore) as Hlo.
      fold others in Hlo. minmax.
    + intros (_ & _ & Hbefore & Hnear) Hreq H0.
      pose proof (minBound_nearest (cl_clipIndex k) (cl_editingClips k) clip
                    j n Hn Hne Hbefore H0 Hnear) as Hlo.
      fold others in Hlo. minmax.
  - intros j' Hj'. apply list_lookup_insert_ne. congruence.
Qed.

(** The spec's scenario, as an instance of the theorem: clips ingested from
    [{id:1,start:0,end:10}] and [{id:2,start:10,end:20}], timeline of 120 s
    drawn 1200 pixels wide; the right edge of clip 1, pressed at x = 100
    when at 10 s, is dragged to x = 150, a request of 15 s.  It stays at
    10 s, the start of clip 2, and clip 2 is unchanged. *)
Lemma adjacent_right_edge_blocked :
  let clips := editingClips (ingestLoaded adjacentClips) in
  let k := rightEdgeOfFirst clips 10 in
  cl_dragStartValue k + deltaTime k 1200 150 == 15 /\
  exists l' c', handleMouseMove k (Some 1200) 150 = Some l' /\
    l' !! 0%nat = Some c' /\ editedStart c' = 0 /\ editedEnd c' == 10 /\
    l' !! 1%nat = clips !! 1%nat.
Proof.
  intros clips k. split; [reflexivity|].
  edestruct (trim_clamps_at_neighbour k 1200 150) with (j := 1%nat)
    as (c' & Hc' & Hend & _ & Hothers);
    [reflexivity | reflexivity | reflexivity | discriminate |].
  destruct (Hend eq_refl) as (Hstart & _ & Hexact).
  exists (default [] (handleMouseMove k (Some 1200) 150)), c'.
  split; [reflexivity|]. split; [exact Hc'|]. split; [exact Hstart|]. split.
  - apply Hexact.
    + split; [reflexivity|]. split; [discriminate|]. split; [vm_compute; discriminate|].
      intros [|[|j']] y Hy Hj' Hle.
      * exfalso. apply Hj'. reflexivity.
      * vm_compute in Hy. injection Hy as <-. vm_compute. discriminate.
      * vm_compute in Hy. discriminate.
    + vm_compute. discriminate.
    + vm_compute. discriminate.
  - apply Hothers. discriminate.
Defined.

(** The closure used above is the one a press registers once the reference
    cells hold the press position and the edge value, as they do when the
    same edge was pressed at the same place just before. *)
Example rightEdgeOfFirst_registered :
  listeners (run (Some 1200) (idle (ingestLoaded adjacentClips))
               [MouseDown 100 DragEnd 0; MouseUp; MouseDown 100 DragEnd 0])
  = [rightEdgeOfFirst (editingClips (ingestLoaded adjacentClips)) 10].
Proof. reflexivity. Qed.

(** ** Bounds containment (C6) *)


(** A move does not maintain it either.  The moved clip ends at
    [newStart + clipDuration], a sum of doubles: the clip from 1 to the next
    double, moved to 100, has that length absorbed by the rounding and ends
    where it starts. *)
Example move_collapses_short_clip :
  let before := editingClips (ingestLoaded shortClips) in
  let after := editingClips (state (run (Some 1200) (idle (ingestLoaded shortClips))
                                      [MouseDown 0 DragMove 0; MouseMove 1000])) in
  Forall (InBounds 120) before /\
  exists c, after !! 0%nat = Some c /\ editedStart c == 100 /\ editedEnd c == 100.
Proof.
  intros before after. split.
  - apply Forall_forall.
    apply (forallb_elem_of (in_boundsb 120) (InBounds 120)).
    + apply in_boundsb_sound.
    + vm_compute. reflexivity.
  - assert (H : match after !! 0%nat with
                | Some c => editedStart c == 100 /\ editedEnd c == 100
                | None => False
                end).
    { vm_compute. split; reflexivity. }
    destruct (after !! 0%nat) as [c|]; [|contradiction].
    exists c. split; [reflexivity | exact H].
Qed.



(** ** Zero net movement (C9) *)






Lemma run_cons ref p e es : run ref p (e :: es) = run ref (dispatch ref p e) es.
Proof. reflexivity. Qed.

Lemma dispatch_MouseDown ref p x dt i :
  dispatch ref p (MouseDown x dt i) =
  match handleTimelineMouseDown (state p) ref x dt i with
  | Some (s', k) => {| state := s'; listeners := listeners p ++ [k] |}
  | None => p
  end.
Proof. reflexivity. Qed.







(** Nor does a move with zero net movement leave the clip as it was.  The
    clip at [0.6, 1.7) ends, after a press on its body when the reference
    cells hold the press, a move away and back, and a release, at
    [0.6 + (1.7 - 0.6)], the next double above 1.7. *)
Example zero_net_move_changes_end :
  let p := run (Some 1200) (idle (ingestLoaded tenthsClips))
               [MouseDown 100 DragMove 0; MouseUp] in
  let p' := run (Some 1200) p
                (MouseDown 100 DragMove 0 :: map MouseMove [130; 100] ++ [MouseUp]) in
  (editedEnd <$> editingClips (state p) !! 0%nat) = Some (JS.double (17 # 10)) /\
  exists c', editingClips (state p') !! 0%nat = Some c' /\
    editedStart c' == JS.double (3 # 5) /\
    editedEnd c' == JS.add (JS.double (3 # 5)) (JS.double (11 # 10)) /\
    JS.double (17 # 10) < editedEnd c'.
Proof.
  intros p p'. split; [vm_compute; reflexivity|].
  assert (H : match editingClips (state p') !! 0%nat with
              | Some c' =>
                  editedStart c' == JS.double (3 # 5) /\
                  editedEnd c' == JS.add (JS.double (3 # 5)) (JS.double (11 # 10)) /\
                  JS.double (17 # 10) < editedEnd c'
              | None => False
              end).
  { vm_compute. repeat split; reflexivity. }
  destruct (editingClips (state p') !! 0%nat) as [c'|]; [|contradiction].
  exists c'. split; [reflexivity | exact H].
Qed.



(** The reference cells are those of the render in which the pressed
    handler was built: the closure registered by a first press at x = 600
    reads the initial [dragStartX = 0] and [dragStartValue = 0], although
    the press stores 600 and the edge value for the next render.  A move
    back to x = 600 is then a request of 60 s, and the left edge of the clip
    at [0, 10) goes to 9 s. *)
Example first_press_reads_initial_reference :
  let p := idle (ingestLoaded adjacentClips) in
  let pressed := run (Some 1200) p [MouseDown 600 DragStart 0] in
  (cl_dragStartX <$> last (listeners pressed)) = Some 0 /\
  (cl_dragStartValue <$> last (listeners pressed)) = Some 0 /\
  dragStartX (state pressed) = 600 /\
  (editedStart <$> editingClips (state (run (Some 1200) pressed [MouseMove 600; MouseUp])) !! 0%nat)
    = Some 9.
Proof. repeat split; reflexivity. Qed.

(** ** Ingest performs no validation (C5) *)

Lemma lookup_map {A B} (f : A -> B) (l : list A) i : map f l !! i = f <$> (l !! i).
Proof.
  revert i. induction l as [|a l IH]; intros [|i]; simpl; auto.
Qed.





(** ** Finalization (C3, C7) *)

(** C3.  When the continuation of [handleFinalize] runs on the outcome of
    the finalize call: a response with status ["success"] puts the job in
    [Complete] and makes [finalizedClips] exactly the returned list,
    whatever it held before; a rejected call or a response with any other
    status puts the job in [Error], not back in [Editing], and leaves the
    clip lists as they were.  In both cases the in-flight flag is cleared. *)
Theorem finalize_outcome (s : State) (o : Outcome FinalizeResponse.t) :
  let s' := handleFinalize_settle s o in
  (forall r, o = Resolved r -> FinalizeResponse.status r = "success"%string ->
     appState s' = Complete /\
     finalizedClips s' = FinalizeResponse.finalized_clips r /\
     isFinalizingClips s' = false) /\
  ((forall r, o = Resolved r -> FinalizeResponse.status r <> "success"%string) ->
     appState s' = Error /\ appState s' <> Editing /\
     editingClips s' = editingClips s /\
     finalizedClips s' = finalizedClips s /\
     isFinalizingClips s' = false).
Proof.
  intros s'. subst s'. unfold handleFinalize_settle, finalize_try. split.
  - intros r -> Hst. rewrite Hst. simpl. auto.
  - intros Hfail. destruct o as [r|e].
    + destruct (String.eqb_spec (FinalizeResponse.status r) "success") as [Heq|Hne].
      * exfalso. now apply (Hfail r).
      * unfold finalize_catch.
        destruct (JS.includes _ _); simpl; repeat split; auto; discriminate.
    + unfold finalize_catch.
      destruct e as [m|]; [destruct (JS.includes m _)|]; simpl;
        repeat split; auto; discriminate.
Qed.

Lemma finalize_outcome_witness :
  appState finalizingState = Processing /\
  isFinalizingClips finalizingState = true /\
  appState (handleFinalize_settle finalizingState (Resolved successResponse)) = Complete /\
  finalizedClips (handleFinalize_settle finalizingState (Resolved successResponse))
    = [rawClip 1 0 8; rawClip 2 12 20] /\
  appState (handleFinalize_settle finalizingState (Rejected (ThrownError "Failed to fetch")))
    = Error.
Proof.
  split; [reflexivity|]. split; [reflexivity|].
  destruct (proj1 (finalize_outcome finalizingState (Resolved successResponse))
              successResponse eq_refl eq_refl) as (H1 & H2 & _).
  destruct (proj2 (finalize_outcome finalizingState (Rejected (ThrownError "Failed to fetch")))
              ltac:(intros r Hr; discriminate Hr)) as (H3 & _).
  split; [exact H1|]. split; [exact H2 | exact H3].
Defined.

(** C7.  A call of [handleFinalize] made while the in-flight flag is set
    returns at its guard: it leaves the state as it is and issues no
    request; nothing is recorded for later. *)
Theorem duplicate_finalize_is_noop (s : State) :
  isFinalizingClips s = true ->
  handleFinalize_begin s = (s, None).
Proof.
  intros H. unfold handleFinalize_begin. rewrite H.
  now destruct (String.eqb (jobId s) "").
Qed.

Lemma duplicate_finalize_is_noop_witness :
  handleFinalize_begin finalizingState = (finalizingState, None).
Proof. apply duplicate_finalize_is_noop. reflexivity. Defined.

(** A first call, by contrast, sets the flag and issues the request. *)
Example first_finalize_issues_request :
  isFinalizingClips (ingestLoaded adjacentClips) = false /\
  (length <$> (handleFinalize_begin (ingestLoaded adjacentClips)).2) = Some 2%nat.
Proof. split; reflexivity. Qed.

(** ** Applying captions (C8) *)

(** C8.  When the apply call is rejected, the page is updated with the
    captions and the style held by the modal and no URL: every clip keeps
    its [path]; a clip whose [id] is the modal's clip gets exactly those
    captions and that style; any other clip is unchanged; [appState] and
    [error] are untouched. *)
Theorem apply_captions_rejected (m : CaptionsModal.t) (e : Thrown) (s : State) :
  let s' := handleApplyCaptions m (Rejected e) s in
  appState s' = appState s /\ error s' = error s /\
  length (editingClips s') = length (editingClips s) /\
  forall i c, editingClips s !! i = Some c ->
    exists c', editingClips s' !! i = Some c' /\
      path c' = path c /\
      (id c = id (CaptionsModal.clip m) ->
         captions c' = Some (CaptionsModal.captions m) /\
         captionStyle c' = Some (CaptionsModal.captionStyle m)) /\
      (id c <> id (CaptionsModal.clip m) -> c' = c).
Proof.
  intros s'. subst s'. unfold handleApplyCaptions, handleCaptionsApplied.
  cbn [appState error editingClips setEditingClips].
  split; [reflexivity|]. split; [reflexivity|]. split; [apply length_map|].
  intros i c Hc. rewrite lookup_map, Hc. simpl.
  eexists. split; [reflexivity|]. unfold applyCaptionsTo.
  destruct (String.eqb_spec (id c) (id (CaptionsModal.clip m))) as [Heq|Hne]; simpl.
  - split; [reflexivity|]. split; [auto | congruence].
  - split; [reflexivity|]. split; [congruence | auto].
Qed.

Lemma apply_captions_rejected_witness :
  let s := ingestLoaded adjacentClips in
  let s' := handleApplyCaptions modalOnFirst (Rejected (ThrownError "Caption application failed: 500")) s in
  appState s' = Editing /\
  exists c', editingClips s' !! 0%nat = Some c' /\
    path c' = ""%string /\ captions c' = Some mockCaptions /\
    captionStyle c' = Some defaultCaptionStyle.
Proof.
  intros s s'.
  destruct (apply_captions_rejected modalOnFirst
              (ThrownError "Caption application failed: 500") s)
    as (Happ & _ & _ & Hclips).
  split; [exact Happ|].
  destruct (Hclips 0%nat (toEditing (processClip "0.5" (rawClip 1 0 10))) eq_refl)
    as (c' & Hc' & Hpath & Hcap & _).
  exists c'. split; [exact Hc'|]. split; [exact Hpath|]. exact (Hcap eq_refl).
Defined.

(** ** The fixed timeline duration (C10) *)

(** C10.  [onLoadedMetadata] sets the timeline duration to 120 whatever the
    state, the clips and the loaded video are, and leaves the clips as they
    are.  From then on a press captures 120: the move handler maps a pixel
    delta to [(deltaX / width) * 120] and its upper bound never exceeds
    120; the timeline is drawn with 5 markers and clip boxes scaled by
    120. *)
Theorem metadata_fixes_timeline_duration (s : State) (video : VideoElement) :
  let s' := (onLoadedMetadata s video).1 in
  videoDuration s' = 120 /\
  editingClips s' = editingClips s /\
  (forall video', (onLoadedMetadata s video').1 = s') /\
  (forall ref x dt i s'' k, handleTimelineMouseDown s' ref x dt i = Some (s'', k) ->
     cl_videoDuration k = 120 /\
     (forall w x', deltaTime k w x' = ((x' - cl_dragStartX k) / w) * 120) /\
     (forall clip others, maxBound (cl_videoDuration k) clip others <= 120)) /\
  markerCount s' = 5%Z /\
  (forall clip m, minStart (editingClips s') = Some m ->
     clipBoxStyle s' clip =
       Some {| box_left := ((editedStart clip - m) / 120) * 100;
               box_width := ((editedEnd clip - editedStart clip) / 120) * 100;
               box_minWidth := 40 |}).
Proof.
  intros s'.
  assert (Hv : videoDuration s' = 120).
  { subst s'. unfold onLoadedMetadata.
    now destruct (editingClips s !! currentClipIndex s). }
  assert (Hc : editingClips s' = editingClips s).
  { subst s'. unfold onLoadedMetadata.
    now destruct (editingClips s !! currentClipIndex s). }
  assert (Hindep : forall video', (onLoadedMetadata s video').1 = s').
  { intros video'. subst s'. unfold onLoadedMetadata.
    now destruct (editingClips s !! currentClipIndex s). }
  clearbody s'.
  split; [exact Hv|]. split; [exact Hc|]. split; [exact Hindep|].
  split; [|split].
  - intros ref x dt i s'' k Hdown.
    apply handleTimelineMouseDown_Some in Hdown as (_ & _ & _ & -> & _).
    cbn [cl_videoDuration cl_dragStartX]. rewrite Hv. split; [reflexivity|]. split.
    + intros w x'. reflexivity.
    + intros clip others. apply Math_min_le_init.
  - unfold markerCount. rewrite Hv. reflexivity.
  - intros clip m Hm. unfold clipBoxStyle. now rewrite Hm, Hv.
Qed.

Lemma metadata_fixes_timeline_duration_witness :
  let s' := ingestLoaded lateClips in
  videoDuration s' = 120 /\
  editingClips s' = editingClips (ingest lateClips) /\
  (editedEnd <$> editingClips s' !! 1%nat) = Some 220 /\
  markerCount s' = 5%Z.
Proof.
  intros s'.
  destruct (metadata_fixes_timeline_duration (ingest lateClips)
              {| video_duration := 37; video_currentTime := 3 |})
    as (Hv & Hc & _ & _ & Hmarkers & _).
  split; [exact Hv|]. split; [exact Hc|]. split; [reflexivity | exact Hmarkers].
Defined.

(** ** Polling (C4) *)

Lemma AppState_eqb_eq a b : AppState_eqb a b = true <-> a = b.
Proof. destruct a, b; simpl; split; congruence. Qed.

Lemma pollingGuard_iff s : pollingGuard s = true <-> Polling s.
Proof.
  unfold pollingGuard, Polling.
  rewrite negb_true_iff, !orb_false_iff, negb_false_iff, AppState_eqb_eq.
  rewrite String.eqb_neq. tauto.
Qed.

Lemma deps_eqb_guard a b :
  deps_eqb (pollingDeps a) (pollingDeps b) = true -> pollingGuard a = pollingGuard b.
Proof.
  unfold deps_eqb, pollingDeps, pollingGuard. simpl. intros H.
  apply andb_true_iff in H as [H H3]. apply andb_true_iff in H as [H1 H2].
  apply AppState_eqb_eq in H1. apply String.eqb_eq in H2. apply Bool.eqb_prop in H3.
  now rewrite H1, H2, H3.
Qed.

Lemma runEffect_spec s :
  rendered (runEffect s).1 = s /\
  interval (runEffect s).1 = (if pollingGuard s then Some 3000%Z else None) /\
  (runEffect s).2 = (if pollingGuard s then 1%nat else 0%nat).
Proof.
  unfold runEffect, pollingEffect. now destruct (pollingGuard s).
Qed.

(** After the mount and any renders, the interval is installed exactly
    when the guard holds of the rendered state. *)
Lemma commits_interval renders : forall m,
  interval m = (if pollingGuard (rendered m) then Some 3000%Z else None) ->
  interval (commits m renders) =
    (if pollingGuard (rendered (commits m renders)) then Some 3000%Z else None).
Proof.
  induction renders as [|s renders IH]; intros m Hm; simpl; [exact Hm|].
  apply IH. unfold commit.
  destruct (deps_eqb (pollingDeps (rendered m)) (pollingDeps s)) eqn:Hdeps.
  - simpl. rewrite <- (deps_eqb_guard _ _ Hdeps). exact Hm.
  - destruct (runEffect_spec s) as (Hr & Hi & _). now rewrite Hi, Hr.
Qed.

(** C4, as stated, fails.  A submission answered with an empty job id
    puts the page in [Processing] with no finalize call in flight, yet the
    effect returns at its guard on [jobId]: no poll, no interval. *)
Lemma no_poll_without_job_id :
  let s := handleSubmit initialState
             (Resolved {| ProcessResponse.job_id := "";
                          ProcessResponse.status := "processing";
                          ProcessResponse.message := "started" |}) in
  appState s = Processing /\ isFinalizingClips s = false /\
  pollingEffect s = [] /\
  (commit (mount initialState).1 s).2 = 0%nat /\
  tick (commit (mount initialState).1 s).1 = 0%nat.
Proof. repeat split; reflexivity. Qed.

(** C4 (amended).  Write [Polling s] for: [s] is in [Processing], its job
    id is not empty and no finalize call is in flight.  For the page [m]
    reached from a mount by any renders, and a further render [s]:
    - the interval is installed, with period 3000 ms, exactly when
      [Polling] holds of the rendered state, and a timer tick calls
      [pollStatus] exactly then;
    - if [Polling] does not hold of the rendered state and holds of [s],
      rendering [s] calls [pollStatus] once at once and installs the
      interval;
    - if [Polling] does not hold of [s], rendering [s] calls nothing and
      leaves no interval installed. *)
Theorem polling_follows_guard (s0 : State) (renders : list State) (s : State) :
  let m := commits (mount s0).1 renders in
  (Polling (rendered m) -> interval m = Some 3000%Z /\ tick m = 1%nat) /\
  (~ Polling (rendered m) -> interval m = None /\ tick m = 0%nat) /\
  (~ Polling (rendered m) -> Polling s ->
     (commit m s).2 = 1%nat /\ interval (commit m s).1 = Some 3000%Z) /\
  (~ Polling s -> (commit m s).2 = 0%nat /\ interval (commit m s).1 = None).
Proof.
  intros m.
  assert (Hm : interval m = (if pollingGuard (rendered m) then Some 3000%Z else None)).
  { apply commits_interval. unfold mount.
    destruct (runEffect_spec s0) as (Hr & Hi & _). now rewrite Hi, Hr. }
  clearbody m. unfold tick. rewrite Hm.
  split; [|split; [|split]].
  - intros Hp. apply pollingGuard_iff in Hp. now rewrite Hp.
  - intros Hp. rewrite <- pollingGuard_iff in Hp.
    now destruct (pollingGuard (rendered m)).
  - intros Hno Hyes. rewrite <- pollingGuard_iff in Hno. apply pollingGuard_iff in Hyes.
    unfold commit.
    destruct (deps_eqb (pollingDeps (rendered m)) (pollingDeps s)) eqn:Hdeps.
    + apply deps_eqb_guard in Hdeps. congruence.
    + destruct (runEffect_spec s) as (_ & Hi & Hn). now rewrite Hi, Hn, Hyes.
  - intros Hno. rewrite <- pollingGuard_iff in Hno.
    assert (Hs : pollingGuard s = false) by now destruct (pollingGuard s).
    unfold commit.
    destruct (deps_eqb (pollingDeps (rendered m)) (pollingDeps s)) eqn:Hdeps.
    + simpl. split; [reflexivity|]. rewrite Hm, (deps_eqb_guard _ _ Hdeps), Hs. reflexivity.
    + destruct (runEffect_spec s) as (_ & Hi & Hn). now rewrite Hi, Hn, Hs.
Qed.

Lemma polling_follows_guard_witness :
  let m := commits (mount initialState).1 [processingState] in
  (interval m = Some 3000%Z /\ tick m = 1%nat) /\
  ((commit m finalizingState).2 = 0%nat /\ interval (commit m finalizingState).1 = None).
Proof.
  intros m.
  destruct (polling_follows_guard initialState [processingState] finalizingState)
    as (Hon & _ & _ & Hoff).
  split.
  - apply Hon. repeat split; discriminate.
  - apply Hoff. intros (_ & _ & H). discriminate H.
Defined.

(** * More of the page: facts *)

(** ** Seeking on the timeline *)

Lemma deliverMove_fold_guard ref x ks : forall s,
  isPreventingTimelineClick (fold_left (deliverMove ref x) ks s)
  = isPreventingTimelineClick s.
Proof.
  induction ks as [|k ks IH]; intros s; simpl; [reflexivity|].
  rewrite IH. unfold deliverMove. now destruct (handleMouseMove k ref x).
Qed.

Lemma handleTimelineMouseDown_guard s ref x dt i s' k :
  handleTimelineMouseDown s ref x dt i = Some (s', k) ->
  isPreventingTimelineClick s' = true.
Proof.
  unfold handleTimelineMouseDown. intros H.
  destruct ref as [w|]; [|discriminate].
  destruct (negb (i =? currentClipIndex s)%nat); [discriminate|].
  injection H as <- _.
  destruct (editingClips s !! i) as [c|]; [destruct dt|]; reflexivity.
Qed.

(** No event but the timeout lowers the click guard. *)
Lemma dispatch_keeps_guard ref p e :
  e <> ClickGuardTimeout ->
  isPreventingTimelineClick (state p) = true ->
  isPreventingTimelineClick (state (dispatch ref p e)) = true.
Proof.
  intros He Hp. destruct e as [x dt i | x | | | i]; simpl.
  - destruct (handleTimelineMouseDown (state p) ref x dt i) as [[s' k]|] eqn:Hd.
    + simpl. eapply handleTimelineMouseDown_guard; eauto.
    + exact Hp.
  - now rewrite deliverMove_fold_guard.
  - now destruct (listeners p).
  - congruence.
  - unfold navigateToClip.
    destruct (editingClips (state p) !! i); [destruct (bool_decide _)|]; exact Hp.
Qed.

Lemma run_keeps_guard ref es : forall p,
  Forall (fun e => e <> ClickGuardTimeout) es ->
  isPreventingTimelineClick (state p) = true ->
  isPreventingTimelineClick (state (run ref p es)) = true.
Proof.
  induction es as [|e es IH]; intros p Hes Hp; [exact Hp|].
  apply Forall_cons in Hes as [He Hes].
  rewrite run_cons. apply IH; [exact Hes|]. now apply dispatch_keeps_guard.
Qed.

(** X1.  From the press that starts a drag until the 150 ms timeout of its
    release fires, a click on the timeline does nothing: whatever moves,
    releases and selections come in between, [handleTimelineClick] leaves
    the state and the video as they are. *)
Theorem click_ignored_until_guard_timeout (ref : option Q) (p : Page) (x : Q)
    (dt : DragType) (i : nat) (es : list DragEvent)
    (rect : option Rect) (video : option VideoElement) (clickX : Q) :
  is_Some (handleTimelineMouseDown (state p) ref x dt i) ->
  Forall (fun e => e <> ClickGuardTimeout) es ->
  let s' := state (run ref p (MouseDown x dt i :: es)) in
  handleTimelineClick s' rect video clickX = (s', video).
Proof.
  intros [[s1 k] Hdown] Hes s'.
  assert (Hguard : isPreventingTimelineClick s' = true).
  { subst s'. rewrite run_cons. apply run_keeps_guard; [exact Hes|].
    rewrite dispatch_MouseDown, Hdown. simpl.
    eapply handleTimelineMouseDown_guard; eauto. }
  clearbody s'. unfold handleTimelineClick.
  destruct rect as [r|], video as [v|]; try reflexivity.
  rewrite Hguard, orb_true_r. reflexivity.
Qed.

Lemma click_ignored_until_guard_timeout_witness :
  let s' := state (run (Some 1200) (idle (ingestLoaded adjacentClips))
                     [MouseDown 100 DragEnd 0; MouseMove 700; MouseUp]) in
  handleTimelineClick s' (Some {| rect_left := 40; rect_width := 1200 |})
    (Some {| video_duration := 37; video_currentTime := 3 |}) 640
  = (s', Some {| video_duration := 37; video_currentTime := 3 |}).
Proof.
  apply (click_ignored_until_guard_timeout (Some 1200) (idle (ingestLoaded adjacentClips))
           100 DragEnd 0 [MouseMove 700; MouseUp]).
  - eexists. reflexivity.
  - repeat constructor; discriminate.
Defined.

(** X2.  With no drag in progress, the guard down and both elements
    mounted, a click inside the timeline element moves the cursor and the
    video to [(clickX / width) * videoDuration], a time between 0 and the
    timeline duration, and touches nothing else of the clips. *)
Theorem click_seeks_within_timeline (s : State) (rect : Rect) (video : VideoElement)
    (clientX : Q) :
  (isDragging s).1 = None ->
  isPreventingTimelineClick s = false ->
  0 < rect_width rect ->
  0 <= videoDuration s ->
  rect_left rect <= clientX <= rect_left rect + rect_width rect ->
  let clickTime := ((clientX - rect_left rect) / rect_width rect) * videoDuration s in
  handleTimelineClick s (Some rect) (Some video) clientX
  = (setCurrentTime clickTime s,
     Some {| video_duration := video_duration video; video_currentTime := clickTime |}) /\
  0 <= clickTime <= videoDuration s.
Proof.
  intros Hdrag Hguard Hw Hd [Hlo Hhi] clickTime. split.
  - unfold handleTimelineClick. rewrite Hdrag, Hguard. reflexivity.
  - subst clickTime.
    assert (H0 : 0 <= (clientX - rect_left rect) / rect_width rect).
    { apply Qle_shift_div_l; [exact Hw | lra]. }
    assert (H1 : (clientX - rect_left rect) / rect_width rect <= 1).
    { apply Qle_shift_div_r; [exact Hw | lra]. }
    split.
    + apply Qmult_le_0_compat; assumption.
    + rewrite <- (Qmult_1_l (videoDuration s)) at 2.
      apply Qmult_le_compat_r; assumption.
Qed.

Lemma click_seeks_within_timeline_witness :
  let s := state (run (Some 1200) (idle (ingestLoaded adjacentClips))
                    [MouseDown 100 DragEnd 0; MouseUp; ClickGuardTimeout]) in
  (currentTime (handleTimelineClick s (Some {| rect_left := 40; rect_width := 1200 |})
                  (Some {| video_duration := 37; video_currentTime := 3 |}) 640).1 == 60) /\
  0 <= ((640 - 40) / 1200) * 120 <= 120.
Proof.
  intros s.
  destruct (click_seeks_within_timeline s {| rect_left := 40; rect_width := 1200 |}
              {| video_duration := 37; video_currentTime := 3 |} 640)
    as [Heq Hrange].
  - reflexivity.
  - reflexivity.
  - reflexivity.
  - vm_compute. discriminate.
  - split; vm_compute; discriminate.
  - split; [|exact Hrange]. rewrite Heq. reflexivity.
Defined.

(** ** Reset, submission and the polling effect *)

(** X3.  [handleReset] does not touch the in-flight flag of finalization
    and nothing cancels the pending continuation.  So after a reset made
    while a finalize call is in flight: the page is back at [Input] with no
    clips; a new submission, even a successful one, is not polled; and
    when the finalize call settles the page leaves [Input] for [Complete]
    (showing the finalized clips of the old job) or [Error]. *)
Theorem reset_leaves_finalize_in_flight (s : State) :
  isFinalizingClips s = true ->
  let s0 := handleReset s in
  appState s0 = Input /\ editingClips s0 = [] /\ jobId s0 = ""%string /\
  isFinalizingClips s0 = true /\
  (forall o, pollingEffect (handleSubmit s0 o) = []) /\
  (forall r, FinalizeResponse.status r = "success"%string ->
     appState (handleFinalize_settle s0 (Resolved r)) = Complete /\
     finalizedClips (handleFinalize_settle s0 (Resolved r))
       = FinalizeResponse.finalized_clips r) /\
  (forall o, appState (handleFinalize_settle s0 o) = Complete \/
             appState (handleFinalize_settle s0 o) = Error).
Proof.
  intros Hf s0.
  assert (Hf0 : isFinalizingClips s0 = true) by exact Hf.
  repeat split; try reflexivity; try exact Hf0.
  - intros o. unfold pollingEffect, pollingGuard.
    assert (Hfo : isFinalizingClips (handleSubmit s0 o) = true).
    { unfold handleSubmit. destruct o as [r|[m|]]; exact Hf. }
    now rewrite Hfo, orb_true_r.
  - unfold handleFinalize_settle, finalize_try. now rewrite H.
  - unfold handleFinalize_settle, finalize_try. now rewrite H.
  - intros o. unfold handleFinalize_settle, finalize_try.
    destruct o as [r|e].
    + destruct (String.eqb (FinalizeResponse.status r) "success"); [now left|].
      right. unfold finalize_catch. now destruct (JS.includes _ _).
    + right. unfold finalize_catch.
      destruct e as [m|]; [now destruct (JS.includes m _)|reflexivity].
Qed.

Lemma reset_leaves_finalize_in_flight_witness :
  let s0 := handleReset finalizingState in
  appState s0 = Input /\
  appState (handleFinalize_settle s0 (Resolved successResponse)) = Complete /\
  pollingEffect (handleSubmit s0
                   (Resolved {| ProcessResponse.job_id := "job-2";
                                ProcessResponse.status := "processing";
                                ProcessResponse.message := "started" |})) = [].
Proof.
  intros s0.
  destruct (reset_leaves_finalize_in_flight finalizingState eq_refl)
    as (H1 & _ & _ & _ & Hpoll & Hdone & _).
  split; [exact H1|]. split; [|apply Hpoll].
  now destruct (Hdone successResponse eq_refl).
Defined.

(** X4.  A first call of [handleFinalize] on a page that has a job id puts
    it in [Processing] with the in-flight flag set, which is a state the
    polling effect does not poll in; the clips are kept, and the request
    carries one record per clip, in order, with the clip's id and edited
    bounds and a flag telling whether the clip has at least one caption. *)
Theorem finalize_begin_suppresses_polling (s : State) :
  jobId s <> ""%string ->
  isFinalizingClips s = false ->
  exists s' request,
    handleFinalize_begin s = (s', Some request) /\
    appState s' = Processing /\ isFinalizingClips s' = true /\
    pollingEffect s' = [] /\
    editingClips s' = editingClips s /\
    length request = length (editingClips s) /\
    forall i c, editingClips s !! i = Some c ->
      exists f, request !! i = Some f /\
        id (fc_clip f) = id c /\
        editedStart (fc_clip f) = editedStart c /\
        editedEnd (fc_clip f) = editedEnd c /\
        hasCaptionedVersion f =
          match captions c with
          | Some [] => Some false
          | Some (_ :: _) => Some true
          | None => None
          end.
Proof.
  intros Hid Hf. unfold handleFinalize_begin.
  apply String.eqb_neq in Hid. rewrite Hid, Hf.
  eexists _, _. split; [reflexivity|].
  split; [reflexivity|]. split; [reflexivity|].
  split; [unfold pollingEffect, pollingGuard; simpl; now rewrite orb_true_r|].
  split; [reflexivity|]. split; [apply length_map|].
  intros i c Hc. rewrite lookup_map, Hc. simpl.
  eexists. split; [reflexivity|]. simpl.
  split; [reflexivity|]. split; [reflexivity|]. split; [reflexivity|].
  unfold hasCaptions. destruct (captions c) as [[|x l]|]; reflexivity.
Qed.

Lemma finalize_begin_suppresses_polling_witness :
  exists s' request,
    handleFinalize_begin (ingestLoaded adjacentClips) = (s', Some request) /\
    appState s' = Processing /\ pollingEffect s' = [] /\
    length request = 2%nat.
Proof.
  destruct (finalize_begin_suppresses_polling (ingestLoaded adjacentClips))
    as (s' & request & H1 & H2 & _ & H4 & _ & H6 & _).
  - discriminate.
  - reflexivity.
  - exists s', request. repeat split; assumption.
Defined.

Lemma trimStart_blank s :
  forallb isWhiteSpace (list_ascii_of_string s) = true -> trimStart s = ""%string.
Proof.
  induction s as [|c r IH]; simpl; [reflexivity|].
  intros H. apply andb_true_iff in H as [Hc Hr]. rewrite Hc. now apply IH.
Qed.

Lemma trimStart_not_blank s :
  forallb isWhiteSpace (list_ascii_of_string s) = false ->
  exists c r, trimStart s = String c r /\ isWhiteSpace c = false.
Proof.
  induction s as [|c r IH]; simpl; [discriminate|].
  destruct (isWhiteSpace c) eqn:Hc; simpl.
  - exact IH.
  - intros _. now exists c, r.
Qed.

Lemma trimEnd_not_blank c r : isWhiteSpace c = false -> trimEnd (String c r) <> ""%string.
Proof.
  intros Hc. simpl.
  destruct (trimEnd r); [rewrite Hc|]; discriminate.
Qed.

Lemma trim_empty_iff s :
  String.eqb (trim s) "" = forallb isWhiteSpace (list_ascii_of_string s).
Proof.
  unfold trim.
  destruct (forallb isWhiteSpace (list_ascii_of_string s)) eqn:Hb.
  - now rewrite (trimStart_blank s Hb).
  - destruct (trimStart_not_blank s Hb) as (c & r & -> & Hc).
    apply String.eqb_neq. now apply trimEnd_not_blank.
Qed.

(** X5.  For a form filled with ASCII text, [handleSubmit] calls the
    processing API exactly when no submission is in flight and both the URL
    and the prompt contain a character that is not white space; it then
    passes both fields untrimmed. *)
Theorem submit_guard (formData : FormData) (isSubmitting : bool) :
  isASCII (url formData) = true -> isASCII (prompt formData) = true ->
  let blank s := forallb isWhiteSpace (list_ascii_of_string s) in
  handleSubmit_begin formData isSubmitting =
    if negb (blank (url formData)) && negb (blank (prompt formData)) && negb isSubmitting
    then Some (url formData, prompt formData)
    else None.
Proof.
  intros _ _ blank. unfold handleSubmit_begin, isFormValid, blank.
  rewrite !trim_empty_iff.
  destruct (forallb isWhiteSpace (list_ascii_of_string (url formData))),
           (forallb isWhiteSpace (list_ascii_of_string (prompt formData))),
           isSubmitting; reflexivity.
Qed.

Lemma submit_guard_witness :
  handleSubmit_begin {| url := "  https://youtu.be/abc "; prompt := "   " |} false = None /\
  handleSubmit_begin {| url := "  https://youtu.be/abc "; prompt := " funny moments" |} false
    = Some ("  https://youtu.be/abc "%string, " funny moments"%string).
Proof.
  split.
  - exact (submit_guard {| url := "  https://youtu.be/abc "; prompt := "   " |} false
             eq_refl eq_refl).
  - exact (submit_guard {| url := "  https://youtu.be/abc "; prompt := " funny moments" |}
             false eq_refl eq_refl).
Defined.

(** X6.  The outcome of a submission, when no finalize call is in flight.
    A response with a non-empty job id puts the page in [Processing] under
    that id, a state in which the polling effect polls at once and installs
    its 3-second interval.  A rejected call puts the page in [Error] with
    the message of the error thrown (["An error occurred"] when the value
    thrown is not an [Error]); nothing is polled. *)
Theorem submission_outcome (s : State) (o : Outcome ProcessResponse.t) :
  isFinalizingClips s = false ->
  let s' := handleSubmit s o in
  match o with
  | Resolved r =>
      ProcessResponse.job_id r <> ""%string ->
      appState s' = Processing /\ jobId s' = ProcessResponse.job_id r /\
      error s' = ""%string /\
      pollingEffect s' = [CallPollStatus; SetInterval 3000]
  | Rejected e =>
      appState s' = Error /\ jobId s' = jobId s /\
      error s' = match e with ThrownError m => m | ThrownOther => "An error occurred"%string end /\
      pollingEffect s' = []
  end.
Proof.
  intros Hf s'. subst s'. destruct o as [r|e].
  - intros Hid. apply String.eqb_neq in Hid.
    repeat split. unfold pollingEffect, pollingGuard, handleSubmit. simpl.
    now rewrite Hid, Hf.
  - destruct e; repeat split.
Qed.

Lemma submission_outcome_witness :
  pollingEffect (handleSubmit initialState
                   (Resolved {| ProcessResponse.job_id := "job-1";
                                ProcessResponse.status := "processing";
                                ProcessResponse.message := "started" |}))
    = [CallPollStatus; SetInterval 3000] /\
  error (handleSubmit initialState (Rejected (ThrownError "API Error: 500 Internal Server Error")))
    = "API Error: 500 Internal Server Error"%string.
Proof.
  split.
  - apply (submission_outcome initialState
             (Resolved {| ProcessResponse.job_id := "job-1";
                          ProcessResponse.status := "processing";
                          ProcessResponse.message := "started" |}) eq_refl).
    discriminate.
  - apply (submission_outcome initialState
             (Rejected (ThrownError "API Error: 500 Internal Server Error")) eq_refl).
Defined.

(** X7.  What a poll that does not report completion does.  A status
    ["failed"] puts the page in [Error] with the message of the response,
    verbatim; a rejected call puts it in [Error] with the message of the
    error thrown (["Failed to get job status"] otherwise); in both cases the
    polling effect of the new state polls nothing: there is no retry.  Any
    other status only replaces [jobStatus]: the state, the error and the
    clips are as before and the effect keeps polling as it did. *)
Theorem poll_without_completion (random : nat -> string) (s : State)
    (o : Outcome JobStatusResponse.t) :
  let s' := pollStatus random s o in
  match o with
  | Resolved status =>
      JobStatusResponse.status status <> "complete"%string ->
      if String.eqb (JobStatusResponse.status status) "failed" then
        appState s' = Error /\ error s' = JobStatusResponse.message status /\
        editingClips s' = editingClips s /\ pollingEffect s' = []
      else
        appState s' = appState s /\ error s' = error s /\
        editingClips s' = editingClips s /\ jobStatus s' = Some status /\
        pollingEffect s' = pollingEffect s
  | Rejected e =>
      appState s' = Error /\
      error s' = match e with
                 | ThrownError m => m
                 | ThrownOther => "Failed to get job status"%string
                 end /\
      editingClips s' = editingClips s /\ pollingEffect s' = []
  end.
Proof.
  intros s'. subst s'. destruct o as [status|e].
  - intros Hc. apply String.eqb_neq in Hc. unfold pollStatus. rewrite Hc.
    destruct (String.eqb (JobStatusResponse.status status) "failed"); repeat split.
  - destruct e; repeat split.
Qed.

Lemma poll_without_completion_witness :
  error (pollStatus (fun _ => "0.5"%string) processingState
           (Resolved {| JobStatusResponse.status := "failed";
                        JobStatusResponse.message := "x";
                        JobStatusResponse.results := None |})) = "x"%string /\
  appState (pollStatus (fun _ => "0.5"%string) processingState
              (Resolved {| JobStatusResponse.status := "failed";
                           JobStatusResponse.message := "x";
                           JobStatusResponse.results := None |})) = Error.
Proof.
  destruct (poll_without_completion (fun _ => "0.5"%string) processingState
              (Resolved {| JobStatusResponse.status := "failed";
                           JobStatusResponse.message := "x";
                           JobStatusResponse.results := None |})
              ltac:(discriminate)) as (H1 & H2 & _).
  split; assumption.
Defined.

(** ** Repeated caption application *)

Lemma handleCaptionsApplied_lookup clipId cs style u s i c :
  editingClips s !! i = Some c -> id c = clipId ->
  editingClips (handleCaptionsApplied clipId cs style u s) !! i
  = Some (withCaptions cs style (JS.or_string u (path c))
            (JS.or_string (originalPath c) (path c)) c).
Proof.
  intros Hc Hid. unfold handleCaptionsApplied.
  cbn [editingClips setEditingClips]. rewrite lookup_map, Hc. simpl.
  unfold applyCaptionsTo. apply String.eqb_eq in Hid. now rewrite Hid.
Qed.

Lemma or_string_Some_ne o p : o <> ""%string -> JS.or_string (Some o) p = o.
Proof. intros H. unfold JS.or_string. apply String.eqb_neq in H. now rewrite H. Qed.

Lemma applyAll_keeps_original clipId i o calls : forall s c,
  editingClips s !! i = Some c -> id c = clipId ->
  originalPath c = Some o -> o <> ""%string ->
  exists c', editingClips (applyAll clipId calls s) !! i = Some c' /\
    id c' = clipId /\ originalPath c' = Some o /\
    path c' = fold_left (fun p call => JS.or_string call.2 p) calls (path c) /\
    editedStart c' = editedStart c /\ editedEnd c' = editedEnd c.
Proof.
  induction calls as [|[[cs style] u] calls IH]; intros s c Hc Hid Ho Hne.
  - exists c. unfold applyAll. simpl. repeat split; auto.
  - pose proof (handleCaptionsApplied_lookup clipId cs style u s i c Hc Hid) as Hstep.
    destruct (IH _ _ Hstep) as (c' & Hc' & Hid' & Ho' & Hp' & Hs' & He').
    + exact Hid.
    + simpl. rewrite Ho. now rewrite or_string_Some_ne.
    + exact Hne.
    + exists c'. unfold applyAll in *. simpl in *. repeat split; auto.
Qed.

(** X8.  However many times captions are applied to a clip, with or
    without a new preview URL, the clip's [originalPath] is the path it had
    before the first application (provided that path is not empty); its
    [path] is the most recent non-empty URL, or the old path if there was
    none; its edited bounds are untouched. *)
Theorem original_path_survives_applies (clipId : string)
    (calls : list (list CaptionSegment * CaptionStyle * option string))
    (s : State) (i : nat) (c : EditingClip) :
  editingClips s !! i = Some c ->
  id c = clipId ->
  originalPath c = None ->
  path c <> ""%string ->
  calls <> [] ->
  exists c', editingClips (applyAll clipId calls s) !! i = Some c' /\
    originalPath c' = Some (path c) /\
    path c' = fold_left (fun p call => JS.or_string call.2 p) calls (path c) /\
    editedStart c' = editedStart c /\ editedEnd c' = editedEnd c.
Proof.
  intros Hc Hid Ho Hne Hcalls.
  destruct calls as [|[[cs style] u] calls]; [congruence|].
  pose proof (handleCaptionsApplied_lookup clipId cs style u s i c Hc Hid) as Hstep.
  destruct (applyAll_keeps_original clipId i (path c) calls _ _ Hstep)
    as (c' & Hc' & _ & Ho' & Hp' & Hs' & He').
  - exact Hid.
  - simpl. now rewrite Ho.
  - exact Hne.
  - exists c'. unfold applyAll in *. simpl in *. repeat split; auto.
Qed.

(** ** The upload modal *)

Lemma existsb_eqb_In x l : existsb (String.eqb x) l = true <-> In x l.
Proof.
  rewrite existsb_exists. split.
  - intros (y & Hy & Heq). apply String.eqb_eq in Heq. now subst.
  - intros H. exists x. split; [exact H | apply String.eqb_refl].
Qed.

(** X9.  Toggling a platform flips its membership in the selection and no
    other: it is selected afterwards exactly when it was not before, every
    other platform is selected afterwards exactly when it was before, and a
    selection without repetitions stays so. *)
Theorem toggle_flips_membership (platform : string) (prev : list string) :
  (In platform (handlePlatformToggle platform prev) <-> ~ In platform prev) /\
  (forall q, q <> platform ->
     (In q (handlePlatformToggle platform prev) <-> In q prev)) /\
  (List.NoDup prev -> List.NoDup (handlePlatformToggle platform prev)).
Proof.
  unfold handlePlatformToggle.
  destruct (existsb (String.eqb platform) prev) eqn:Hin.
  - apply existsb_eqb_In in Hin. split; [|split].
    + rewrite filter_In, String.eqb_refl. simpl. intuition discriminate.
    + intros q Hq. rewrite filter_In. apply String.eqb_neq in Hq. rewrite Hq. simpl. tauto.
    + apply List.NoDup_filter.
  - assert (Hnot : ~ In platform prev).
    { intros H. apply existsb_eqb_In in H. congruence. }
    split; [|split].
    + rewrite in_app_iff. simpl. tauto.
    + intros q Hq. rewrite in_app_iff. simpl. intuition congruence.
    + intros Hnd. apply NoDup_ListNoDup. apply NoDup_app. repeat split.
      * now apply NoDup_ListNoDup.
      * intros x Hx Hx'. apply list_elem_of_In in Hx.
        apply list_elem_of_In in Hx'. destruct Hx' as [<-|[]]. contradiction.
      * apply NoDup_singleton.
Qed.

Lemma toggle_flips_membership_witness :
  List.NoDup (handlePlatformToggle "instagram" ["youtube"; "instagram"]%string) /\
  handlePlatformToggle "instagram" (handlePlatformToggle "instagram" ["youtube"]%string)
    = ["youtube"]%string.
Proof.
  split; [|reflexivity].
  apply (toggle_flips_membership "instagram" ["youtube"; "instagram"]%string).
  repeat constructor; simpl; intuition discriminate.
Defined.

(** ** [getClipUrl] and the HTTP wrappers *)

Lemma prefix_app a b c : String.prefix a b = true -> String.prefix a (b ++ c)%string = true.
Proof.
  revert b. induction a as [|x a IH]; intros b H; [now destruct (b ++ c)%string|].
  destruct b as [|y b]; simpl in *; [discriminate|].
  destruct (Ascii.ascii_dec x y); [now apply IH | discriminate].
Qed.

(** X10.  When the base URL of the API starts with "http", [getClipUrl]
    returns a string that starts with "http" and maps such strings to
    themselves: an absolute URL is never prefixed, and applying [getClipUrl]
    twice is the same as applying it once. *)
Theorem getClipUrl_idempotent (API_BASE_URL path : string) :
  String.prefix "http" API_BASE_URL = true ->
  String.prefix "http" (getClipUrl API_BASE_URL path) = true /\
  getClipUrl API_BASE_URL (getClipUrl API_BASE_URL path) = getClipUrl API_BASE_URL path /\
  (String.prefix "http" path = true -> getClipUrl API_BASE_URL path = path).
Proof.
  intros Hbase.
  assert (H : String.prefix "http" (getClipUrl API_BASE_URL path) = true).
  { unfold getClipUrl. destruct (String.prefix "http" path) eqn:Hp; [exact Hp|].
    now apply prefix_app. }
  split; [exact H|]. split.
  - unfold getClipUrl at 1. now rewrite H.
  - intros Hp. unfold getClipUrl. now rewrite Hp.
Qed.

Lemma getClipUrl_idempotent_witness :
  getClipUrl "http://localhost:8000" (getClipUrl "http://localhost:8000" "/clips/a.mp4")
  = "http://localhost:8000/clips/a.mp4"%string.
Proof.
  destruct (getClipUrl_idempotent "http://localhost:8000" "/clips/a.mp4" eq_refl)
    as (_ & H & _).
  rewrite H. reflexivity.
Defined.

Lemma original_path_survives_applies_witness :
  exists c', editingClips
               (applyAll "1"
                  [(mockCaptions, defaultCaptionStyle, Some "/clips/1_captioned.mp4"%string);
                   (mockCaptions, defaultCaptionStyle, None);
                   (mockCaptions, defaultCaptionStyle, Some "/clips/1_captioned_v2.mp4"%string)]
                  (ingestLoaded previewClips)) !! 0%nat = Some c' /\
    originalPath c' = Some "/clips/1.mp4"%string /\
    path c' = "/clips/1_captioned_v2.mp4"%string.
Proof.
  edestruct (original_path_survives_applies "1"
              [(mockCaptions, defaultCaptionStyle, Some "/clips/1_captioned.mp4"%string);
               (mockCaptions, defaultCaptionStyle, None);
               (mockCaptions, defaultCaptionStyle, Some "/clips/1_captioned_v2.mp4"%string)]
              (ingestLoaded previewClips) 0%nat)
    as (c' & Hc' & Ho & Hp & _);
    [reflexivity | reflexivity | reflexivity | discriminate | discriminate |].
  exists c'. split; [exact Hc'|]. split; [exact Ho | exact Hp].
Defined.

(** X11.  How transport failures of the finalize and status calls reach the
    user.  A [fetch] rejected with an error whose message contains
    "Failed to fetch" ends finalization in [Error] with the fixed network
    message.  A response that is not [ok] ends it in [Error] with
    "Finalization failed: API Error: <status> <statusText>", unless that
    text itself contains "Failed to fetch".  A status response that is not
    [ok] ends polling in [Error] with "API Error: <status> <statusText>". *)
Theorem http_failures_reach_the_user (random : nat -> string) (s : State) :
  (forall m, JS.includes m "Failed to fetch" = true ->
     let s' := handleFinalize_settle s (finalizeClips (Rejected (ThrownError m))) in
     appState s' = Error /\
     error s' = "Network error during finalization. Please check your connection and try again."%string) /\
  (forall r, Response.ok r = false ->
     let m := ("API Error: " ++ JS.toString (Response.status r) ++ " " ++ Response.statusText r)%string in
     JS.includes m "Failed to fetch" = false ->
     let s' := handleFinalize_settle s (finalizeClips (Resolved r)) in
     appState s' = Error /\ error s' = ("Finalization failed: " ++ m)%string) /\
  (forall r, Response.ok r = false ->
     let s' := pollStatus random s (getJobStatus (Resolved r)) in
     appState s' = Error /\
     error s' = ("API Error: " ++ JS.toString (Response.status r) ++ " "
                 ++ Response.statusText r)%string).
Proof.
  split; [|split].
  - intros m Hm s'. subst s'.
    unfold finalizeClips, apiCall, handleFinalize_settle, finalize_try, finalize_catch.
    now rewrite Hm.
  - intros r Hok m Hm s'. subst s'.
    unfold finalizeClips, apiCall, handleFinalize_settle, finalize_try, finalize_catch.
    rewrite Hok. simpl negb. cbv iota. fold m. now rewrite Hm.
  - intros r Hok s'. subst s'. unfold getJobStatus, apiCall, pollStatus.
    now rewrite Hok.
Qed.

Lemma http_failures_reach_the_user_witness :
  error (handleFinalize_settle finalizingState
           (finalizeClips (Resolved {| Response.ok := false; Response.status := 500;
                                       Response.statusText := "Internal Server Error";
                                       Response.json := Rejected ThrownOther |})))
  = "Finalization failed: API Error: 500 Internal Server Error"%string.
Proof.
  destruct (http_failures_reach_the_user (fun _ => "0.5"%string) finalizingState)
    as (_ & H & _).
  destruct (H {| Response.ok := false; Response.status := 500;
                 Response.statusText := "Internal Server Error";
                 Response.json := Rejected ThrownOther |} eq_refl eq_refl) as [_ He].
  exact He.
Defined.

(** ** The OAuth popup *)

Lemma authRun_waits platform selfOrigin n es : forall f,
  authRun platform selfOrigin f (repeat (CheckClosed false) n ++ es)
  = authRun platform selfOrigin f es.
Proof.
  induction n as [|n IH]; intros f; [reflexivity|].
  simpl. unfold authRun in *. simpl. rewrite andb_false_r. apply IH.
Qed.

Lemma authStep_settled platform selfOrigin f e o :
  promise f = Settled o -> promise (authStep platform selfOrigin f e) = Settled o.
Proof.
  intros H. unfold authStep.
  destruct e as [closed | origin data].
  - destruct (checking f && closed); simpl; [now rewrite H | exact H].
  - destruct (negb (listening f)); [exact H|].
    destruct (negb (String.eqb origin selfOrigin)); [exact H|].
    destruct data as [p t | p err |]; try exact H;
      destruct (Platform_eqb p platform); simpl; try exact H; now rewrite H.
Qed.

(** X12.  An authentication promise settles at most once, and only on an
    event meant for it.  Once settled it keeps its outcome whatever events
    follow; and any sequence of ticks that find the popup open, messages
    from another origin, and messages that are not authentication messages
    of its platform leaves it pending, with its interval and its listener
    in place. *)
Theorem auth_promise_settles_once (platform : Platform) (selfOrigin : string)
    (es : list AuthEvent) :
  (forall f o, promise f = Settled o ->
     promise (authRun platform selfOrigin f es) = Settled o) /\
  (forallb (inert platform selfOrigin) es = true ->
     authRun platform selfOrigin authStart es = authStart).
Proof.
  split.
  - induction es as [|e es IH]; intros f o H; [exact H|].
    simpl. apply IH. now apply authStep_settled.
  - unfold authRun. generalize authStart as f.
    induction es as [|e es IH]; intros f H; [reflexivity|].
    simpl in H. apply andb_true_iff in H as [He Hes]. simpl.
    assert (Hstep : authStep platform selfOrigin f e = f).
    { unfold authStep. destruct e as [closed | origin data]; simpl in He.
      - apply negb_true_iff in He. rewrite He, andb_false_r. reflexivity.
      - destruct (negb (listening f)); [reflexivity|].
        destruct (negb (String.eqb origin selfOrigin)); [reflexivity|].
        simpl in He.
        destruct data as [p t | p err |]; [| |reflexivity];
          apply negb_true_iff in He; now rewrite He. }
    rewrite Hstep. now apply IH.
Qed.

Lemma auth_promise_settles_once_witness :
  authRun YouTube "https://app.example"
    authStart
    [CheckClosed false;
     Message "https://evil.example"
       (AuthSuccess YouTube {| Tokens.accessToken := "stolen"; Tokens.refreshToken := None;
                               Tokens.userId := None |});
     Message "https://app.example" (AuthError Instagram "denied")]
  = authStart.
Proof.
  apply (auth_promise_settles_once YouTube "https://app.example"). reflexivity.
Defined.

Lemma handleSocialLogin_resolved platform tokens prev j a :
  prev !! j = Some a ->
  exists a', handleSocialLogin platform (Resolved tokens) prev !! j = Some a' /\
    (Account.platform a = platform ->
       Account.isConnected a' = true /\
       Account.accessToken a' = Some (Tokens.accessToken tokens) /\
       Account.userId a' = match platform with
                           | YouTube => Account.userId a
                           | Instagram => Tokens.userId tokens
                           end) /\
    (Account.platform a <> platform -> a' = a).
Proof.
  intros Ha. unfold handleSocialLogin.
  destruct platform; rewrite lookup_map, Ha; simpl; eexists; (split; [reflexivity|]);
    destruct (Account.platform a); simpl; split; intros H; try congruence; auto.
Qed.

(** X13.  The YouTube sign-in from end to end: the callback page runs in
    the popup, its message (if any) reaches the opener, the popup is then
    found closed, and [handleSocialLogin] acts on the settled promise.
    The promise always settles.  It is fulfilled exactly when the callback
    URL carries no [error], carries a [code], the popup has an opener and
    the token endpoint answered with a non-empty [access_token]; the
    YouTube account is then connected with that token and every other
    account is unchanged.  In every other case the promise is rejected and
    the accounts are left as they were; with an [error] in the URL no token
    request is made at all. *)
Theorem youtube_login_end_to_end (params : UrlParams) (opener : bool)
    (exchange : Outcome TokenData.t) (selfOrigin : string) (waits : nat)
    (prev : list Account.t) :
  let run := youtubeCallback params opener exchange in
  let flow := authRun YouTube selfOrigin authStart
                (repeat (CheckClosed false) waits ++ popupEvents selfOrigin run) in
  let granted :=
    negb (truthyString (param_error params)) && truthyString (param_code params) && opener
    && match exchange with
       | Resolved tokenData => truthyString (TokenData.access_token tokenData)
       | Rejected _ => false
       end in
  (truthyString (param_error params) = true -> tokenRequests run = 0%nat) /\
  exists o, promise flow = Settled o /\ checking flow = false /\
    if granted then
      exists tokenData, exchange = Resolved tokenData /\
        o = Resolved {| Tokens.accessToken := default ""%string (TokenData.access_token tokenData);
                        Tokens.refreshToken := TokenData.refresh_token tokenData;
                        Tokens.userId := None |} /\
        forall j a, prev !! j = Some a ->
          exists a', handleSocialLogin YouTube o prev !! j = Some a' /\
            (Account.platform a = YouTube ->
               Account.isConnected a' = true /\
               Account.accessToken a' = TokenData.access_token tokenData) /\
            (Account.platform a <> YouTube -> a' = a)
    else
      (exists e, o = Rejected e) /\ handleSocialLogin YouTube o prev = prev.
Proof.
  intros run flow granted. split.
  - intros He. subst run. unfold youtubeCallback. now rewrite He.
  - subst flow. rewrite authRun_waits. subst run granted.
    unfold youtubeCallback.
    destruct (truthyString (param_error params)) eqn:He; simpl negb; cbv iota.
    { destruct opener; simpl; rewrite ?String.eqb_refl; simpl;
        eexists; (split; [reflexivity|]); (split; [reflexivity|]); split; eauto. }
    destruct (truthyString (param_code params)) eqn:Hcode; simpl andb; cbv iota.
    2:{ simpl. eexists; (split; [reflexivity|]); (split; [reflexivity|]); split; eauto. }
    destruct exchange as [tokenData|e].
    2:{ rewrite andb_false_r.
        destruct opener; simpl; rewrite ?String.eqb_refl; simpl;
          eexists; (split; [reflexivity|]); (split; [reflexivity|]); split; eauto. }
    destruct (truthyString (TokenData.access_token tokenData)) eqn:Htok.
    2:{ rewrite andb_false_r.
        destruct opener; simpl; rewrite ?String.eqb_refl; simpl;
          eexists; (split; [reflexivity|]); (split; [reflexivity|]); split; eauto. }
    rewrite andb_true_r. destruct opener; simpl; rewrite ?String.eqb_refl; simpl.
    + eexists. split; [reflexivity|]. split; [reflexivity|].
      exists tokenData. split; [reflexivity|]. split; [reflexivity|].
      intros j a Ha.
      destruct (handleSocialLogin_resolved YouTube
                  {| Tokens.accessToken := default ""%string (TokenData.access_token tokenData);
                     Tokens.refreshToken := TokenData.refresh_token tokenData;
                     Tokens.userId := None |} prev j a Ha) as (a' & Ha' & Hyes & Hno).
      exists a'. split; [exact Ha'|]. split; [|exact Hno].
      intros Hp. destruct (Hyes Hp) as (H1 & H2 & _). split; [exact H1|].
      rewrite H2. simpl.
      destruct (TokenData.access_token tokenData); [reflexivity|discriminate].
    + eexists; (split; [reflexivity|]); (split; [reflexivity|]); split; eauto.
Qed.

Lemma youtube_login_end_to_end_witness :
  let run := youtubeCallback {| param_code := Some "4/abc"%string; param_error := None |} true
               (Resolved {| TokenData.access_token := Some "ya29.token"%string;
                            TokenData.refresh_token := Some "1//refresh"%string;
                            TokenData.user_id := None |}) in
  let flow := authRun YouTube "https://app.example" authStart
                (repeat (CheckClosed false) 3 ++ popupEvents "https://app.example" run) in
  exists o, promise flow = Settled o /\
    (Account.accessToken <$> handleSocialLogin YouTube o initialAccounts !! 0%nat)
      = Some (Some "ya29.token"%string) /\
    handleSocialLogin YouTube o initialAccounts !! 1%nat = initialAccounts !! 1%nat.
Proof.
  intros run flow.
  destruct (youtube_login_end_to_end
              {| param_code := Some "4/abc"%string; param_error := None |} true
              (Resolved {| TokenData.access_token := Some "ya29.token"%string;
                           TokenData.refresh_token := Some "1//refresh"%string;
                           TokenData.user_id := None |})
              "https://app.example" 3 initialAccounts)
    as (_ & o & Ho & _ & Hgranted).
  cbn [truthyString param_error param_code negb andb TokenData.access_token String.eqb]
    in Hgranted.
  destruct Hgranted as (td & Htd & _ & Hacc).
  injection Htd as <-.
  exists o. split; [exact Ho|]. split.
  - destruct (Hacc 0%nat _ eq_refl) as (a' & Ha' & Hyes & _).
    rewrite Ha'. simpl. f_equal. now destruct (Hyes eq_refl).
  - destruct (Hacc 1%nat _ eq_refl) as (a' & Ha' & _ & Hno).
    rewrite Ha', (Hno ltac:(discriminate)). reflexivity.
Defined.

(** X14.  The Instagram sign-in from end to end.  The promise always
    settles.  It is fulfilled exactly when the callback URL carries no
    [error], carries a [code], the popup has an opener, the first token
    request answered with a non-empty short-lived [access_token] and the
    second request (for a long-lived token) did not fail; the Instagram
    account is then connected with the long-lived token when the second
    answer carries a non-empty one and with the short-lived token
    otherwise, and with the [user_id] of the first answer.  In every other
    case the accounts are left as they were. *)
Theorem instagram_login_end_to_end (params : UrlParams) (opener : bool)
    (exchange longLived : Outcome TokenData.t) (selfOrigin : string) (waits : nat)
    (prev : list Account.t) :
  let run := instagramCallback params opener exchange longLived in
  let flow := authRun Instagram selfOrigin authStart
                (repeat (CheckClosed false) waits ++ popupEvents selfOrigin run) in
  let granted :=
    negb (truthyString (param_error params)) && truthyString (param_code params) && opener
    && match exchange, longLived with
       | Resolved tokenData, Resolved _ => truthyString (TokenData.access_token tokenData)
       | _, _ => false
       end in
  exists o, promise flow = Settled o /\ checking flow = false /\
    if granted then
      exists tokenData longLivedTokenData,
        exchange = Resolved tokenData /\ longLived = Resolved longLivedTokenData /\
        let token :=
          if truthyString (TokenData.access_token longLivedTokenData)
          then TokenData.access_token longLivedTokenData
          else TokenData.access_token tokenData in
        forall j a, prev !! j = Some a ->
          exists a', handleSocialLogin Instagram o prev !! j = Some a' /\
            (Account.platform a = Instagram ->
               Account.isConnected a' = true /\
               Account.accessToken a' = token /\
               Account.userId a' = TokenData.user_id tokenData) /\
            (Account.platform a <> Instagram -> a' = a)
    else
      (exists e, o = Rejected e) /\ handleSocialLogin Instagram o prev = prev.
Proof.
  intros run flow granted.
  subst flow. rewrite authRun_waits. subst run granted.
  unfold instagramCallback.
  destruct (truthyString (param_error params)) eqn:He; simpl negb; cbv iota.
  { destruct opener; simpl; rewrite ?String.eqb_refl; simpl;
      eexists; (split; [reflexivity|]); (split; [reflexivity|]); split; eauto. }
  destruct (truthyString (param_code params)) eqn:Hcode; simpl andb; cbv iota.
  2:{ simpl. eexists; (split; [reflexivity|]); (split; [reflexivity|]); split; eauto. }
  destruct exchange as [tokenData|e].
  2:{ rewrite andb_false_r.
      destruct opener; simpl; rewrite ?String.eqb_refl; simpl;
        eexists; (split; [reflexivity|]); (split; [reflexivity|]); split; eauto. }
  destruct (truthyString (TokenData.access_token tokenData)) eqn:Htok.
  2:{ assert (Hg : (opener && match longLived with
                              | Resolved _ => false
                              | Rejected _ => false
                              end) = false)
        by (destruct longLived; apply andb_false_r).
      rewrite Hg.
      destruct opener; simpl; rewrite ?String.eqb_refl; simpl;
        eexists; (split; [reflexivity|]); (split; [reflexivity|]); split; eauto. }
  destruct longLived as [longLivedTokenData|e].
  2:{ rewrite andb_false_r.
      destruct opener; simpl; rewrite ?String.eqb_refl; simpl;
        eexists; (split; [reflexivity|]); (split; [reflexivity|]); split; eauto. }
  rewrite andb_true_r. destruct opener; simpl; rewrite ?String.eqb_refl; simpl.
  - eexists. split; [reflexivity|]. split; [reflexivity|].
    exists tokenData, longLivedTokenData. split; [reflexivity|]. split; [reflexivity|].
    intros j a Ha.
    destruct (handleSocialLogin_resolved Instagram
                {| Tokens.accessToken :=
                     JS.or_string (TokenData.access_token longLivedTokenData)
                       (default ""%string (TokenData.access_token tokenData));
                   Tokens.refreshToken := None;
                   Tokens.userId := TokenData.user_id tokenData |} prev j a Ha)
      as (a' & Ha' & Hyes & Hno).
    exists a'. split; [exact Ha'|]. split; [|exact Hno].
    intros Hp. destruct (Hyes Hp) as (H1 & H2 & H3).
    split; [exact H1|]. split; [|exact H3]. rewrite H2. simpl.
    unfold JS.or_string, truthyString in *.
    destruct (TokenData.access_token longLivedTokenData) as [l|];
      destruct (TokenData.access_token tokenData) as [t|]; try discriminate; simpl;
      try reflexivity.
    now destruct (String.eqb l "").
  - eexists; (split; [reflexivity|]); (split; [reflexivity|]); split; eauto.
Qed.

Lemma instagram_login_end_to_end_witness :
  let run := instagramCallback {| param_code := Some "AQD"%string; param_error := None |} true
               (Resolved {| TokenData.access_token := Some "short"%string;
                            TokenData.refresh_token := None;
                            TokenData.user_id := Some "178414"%string |})
               (Resolved {| TokenData.access_token := None;
                            TokenData.refresh_token := None;
                            TokenData.user_id := None |}) in
  let flow := authRun Instagram "https://app.example" authStart
                (popupEvents "https://app.example" run) in
  exists o, promise flow = Settled o /\
    (Account.accessToken <$> handleSocialLogin Instagram o initialAccounts !! 1%nat)
      = Some (Some "short"%string).
Proof.
  intros run flow.
  destruct (instagram_login_end_to_end
              {| param_code := Some "AQD"%string; param_error := None |} true
              (Resolved {| TokenData.access_token := Some "short"%string;
                           TokenData.refresh_token := None;
                           TokenData.user_id := Some "178414"%string |})
              (Resolved {| TokenData.access_token := None;
                           TokenData.refresh_token := None;
                           TokenData.user_id := None |})
              "https://app.example" 0 initialAccounts)
    as (o & Ho & _ & Hgranted).
  cbn [truthyString param_error param_code negb andb TokenData.access_token String.eqb]
    in Hgranted.
  destruct Hgranted as (td & ll & Htd & Hll & Hacc).
  injection Htd as <-. injection Hll as <-.
  exists o. split; [exact Ho|].
  destruct (Hacc 1%nat _ eq_refl) as (a' & Ha' & Hyes & _).
  rewrite Ha'. simpl. f_equal. now destruct (Hyes eq_refl) as (_ & -> & _).
Defined.

(** ** [handleUploadProcess] *)

Lemma in_concat_imap {A B} (f : nat -> A -> list B) (l : list A) b :
  In b (concat (imap f l)) <-> exists i a, l !! i = Some a /\ In b (f i a).
Proof.
  rewrite in_concat. split.
  - intros (y & Hy & Hb). apply list_elem_of_In in Hy.
    apply elem_of_lookup_imap in Hy as (i & a & -> & Ha). eauto.
  - intros (i & a & Ha & Hb). exists (f i a). split; [|exact Hb].
    apply list_elem_of_In. apply elem_of_lookup_imap. eauto.
Qed.

Lemma concat_imap_nil {A B} (l : list A) : forall (f : nat -> A -> list B),
  (forall i a, f i a = []) -> concat (imap f l) = [].
Proof.
  induction l as [|x l IH]; intros f Hf; simpl; [reflexivity|].
  rewrite Hf. simpl. apply IH. intros i a. apply Hf.
Qed.

Lemma findAccount_Some platform accounts acc :
  findAccount platform accounts = Some acc ->
  In acc accounts /\ platformName (Account.platform acc) = platform /\
  Account.isConnected acc = true.
Proof.
  unfold findAccount. intros H. apply find_some in H as [Hin Hb].
  apply andb_true_iff in Hb as [Hp Hc]. apply String.eqb_eq in Hp. auto.
Qed.

Lemma truthyString_Some v : truthyString v = true ->
  exists s, v = Some s /\ s <> ""%string.
Proof.
  destruct v as [s|]; simpl; [|discriminate].
  intros H. exists s. split; [reflexivity|].
  apply String.eqb_neq. now apply negb_true_iff.
Qed.

(** X15.  [handleUploadProcess] uploads only on behalf of a connected
    account that holds a token: every upload it starts is for a platform
    that was selected, and carries the non-empty access token (and, for
    Instagram, the non-empty user id) of a connected account of that
    platform. *)
Theorem uploads_need_connected_account (API_BASE_URL : string)
    (selected : option Clip.t) (platforms : list string) (downloadMp4 : bool)
    (socialAccounts : list Account.t) (videoFetched : nat -> Outcome bool)
    (action : UploadAction) :
  In action (handleUploadProcess API_BASE_URL selected platforms downloadMp4
               socialAccounts videoFetched) ->
  match action with
  | UploadToYouTube _ _ _ token =>
      In "youtube"%string platforms /\ token <> ""%string /\
      exists acc, In acc socialAccounts /\ Account.platform acc = YouTube /\
        Account.isConnected acc = true /\ Account.accessToken acc = Some token
  | UploadToInstagram _ token user =>
      In "instagram"%string platforms /\ token <> ""%string /\ user <> ""%string /\
      exists acc, In acc socialAccounts /\ Account.platform acc = Instagram /\
        Account.isConnected acc = true /\ Account.accessToken acc = Some token /\
        Account.userId acc = Some user
  | _ => True
  end.
Proof.
  unfold handleUploadProcess. destruct selected as [clip|]; [|contradiction].
  rewrite !in_app_iff. intros [Hd | [Hu | Hl]].
  - destruct downloadMp4; [|contradiction]. destruct Hd as [<-|[]]. exact I.
  - apply in_concat_imap in Hu as (i & platform & Hp & Hin).
    apply list_elem_of_lookup_2, list_elem_of_In in Hp.
    unfold uploadTo in Hin.
    destruct (findAccount platform socialAccounts) as [acc|] eqn:Hfind; [|contradiction].
    apply findAccount_Some in Hfind as (Hacc & Hname & Hconn).
    destruct (truthyString (Account.accessToken acc)) eqn:Htok; [|contradiction].
    apply truthyString_Some in Htok as (token & Htoken & Hne).
    simpl in Hin. destruct Hin as [<-|Hin]; [exact I|].
    destruct (videoFetched i) as [[|]|e]; try contradiction.
    destruct (String.eqb_spec platform "youtube") as [->|Hny].
    + destruct Hin as [<-|[]]. rewrite Htoken. simpl.
      split; [exact Hp|]. split; [exact Hne|]. exists acc.
      repeat split; auto. now destruct (Account.platform acc).
    + destruct (String.eqb_spec platform "instagram") as [->|Hni]; [|contradiction].
      simpl in Hin.
      destruct (truthyString (Account.userId acc)) eqn:Huid; [|contradiction].
      apply truthyString_Some in Huid as (user & Huser & Hune).
      destruct Hin as [<-|[]]. rewrite Htoken, Huser. simpl.
      split; [exact Hp|]. split; [exact Hne|]. split; [exact Hune|]. exists acc.
      repeat split; auto. now destruct (Account.platform acc).
  - destruct (0 <? length (successMessages platforms downloadMp4))%nat; [|contradiction].
    destruct Hl as [<-|[]]. exact I.
Qed.

Lemma uploads_need_connected_account_witness :
  In (UploadToYouTube "Clip 1" "Created with YouTube Shorts AI" [] "ya29.token")
     (handleUploadProcess "http://localhost:8000" (Some finalClip)
        ["youtube"; "instagram"]%string true connectedAccounts (fun _ => Resolved true)) /\
  exists acc, In acc connectedAccounts /\ Account.platform acc = YouTube /\
    Account.isConnected acc = true /\
    Account.accessToken acc = Some "ya29.token"%string.
Proof.
  assert (Hin : In (UploadToYouTube "Clip 1" "Created with YouTube Shorts AI" [] "ya29.token")
     (handleUploadProcess "http://localhost:8000" (Some finalClip)
        ["youtube"; "instagram"]%string true connectedAccounts (fun _ => Resolved true))).
  { vm_compute. right. right. left. reflexivity. }
  split; [exact Hin|].
  exact (proj2 (proj2 (uploads_need_connected_account _ _ _ _ _ _ _ Hin))).
Defined.

Lemma findAccount_none platform accounts :
  Forall (fun acc => Account.isConnected acc = false) accounts ->
  findAccount platform accounts = None.
Proof.
  unfold findAccount. induction 1 as [|acc accounts Hacc _ IH]; simpl; [reflexivity|].
  rewrite Hacc, andb_false_r. exact IH.
Qed.

(** X16.  The completion line of [handleUploadProcess] does not depend on
    what happened: whenever a platform was selected, the last thing it does
    is to log that the clip was uploaded to every selected platform,
    whatever the accounts and the outcomes of the fetches; with no account
    connected nothing is fetched or uploaded and the line is logged all the
    same. *)
Theorem completion_log_ignores_outcomes (API_BASE_URL : string) (clip : Clip.t)
    (platforms : list string) (downloadMp4 : bool)
    (socialAccounts : list Account.t) (videoFetched : nat -> Outcome bool) :
  platforms <> [] ->
  let line := LogCompleted
                (("Uploaded to: " ++ String.concat ", " platforms)%string
                 :: (if downloadMp4 then ["MP4 downloaded"%string] else [])) in
  last (handleUploadProcess API_BASE_URL (Some clip) platforms downloadMp4
          socialAccounts videoFetched) = Some line /\
  (Forall (fun acc => Account.isConnected acc = false) socialAccounts ->
   handleUploadProcess API_BASE_URL (Some clip) platforms downloadMp4
     socialAccounts videoFetched
   = (if downloadMp4
      then [ClickDownload (getClipUrl API_BASE_URL (Clip.path clip))
              (Clip.title clip ++ ".mp4")]
      else []) ++ [line]).
Proof.
  intros Hne line.
  assert (Hmsg : successMessages platforms downloadMp4
                 = ("Uploaded to: " ++ String.concat ", " platforms)%string
                   :: (if downloadMp4 then ["MP4 downloaded"%string] else [])).
  { unfold successMessages. destruct platforms; [contradiction|reflexivity]. }
  unfold handleUploadProcess. rewrite Hmsg. cbn [length Nat.ltb Nat.leb].
  fold line. split.
  - now rewrite !app_assoc, last_snoc.
  - intros Hnone. rewrite concat_imap_nil; [reflexivity|].
    intros i platform. unfold uploadTo. now rewrite findAccount_none.
Qed.

Lemma completion_log_ignores_outcomes_witness :
  handleUploadProcess "http://localhost:8000" (Some finalClip)
    ["youtube"; "instagram"]%string false initialAccounts (fun _ => Rejected (ThrownError "Failed to fetch"))
  = [LogCompleted ["Uploaded to: youtube, instagram"%string]].
Proof.
  refine (proj2 (completion_log_ignores_outcomes "http://localhost:8000" finalClip
                   ["youtube"; "instagram"]%string false initialAccounts
                   (fun _ => Rejected (ThrownError "Failed to fetch")) _) _).
  - discriminate.
  - repeat constructor.
Defined.

(** ** Editing a caption in the modal *)

(** X17.  [saveEdit] writes through to the clip.  With the modal opened on
    a clip's own caption array, saving an edit of the segment at an index of
    the array leaves the modal with the same array and no edit in progress,
    and the clip's array now reads the edited text at every position that
    holds that segment object, and what it read before elsewhere: the text
    has changed in the clip without any call of [onCaptionsApplied]. *)
Theorem saveEdit_writes_through (store : CaptionObjects.Store)
    (clipCaptions : list nat) (index address : nat) (seg : CaptionSegment)
    (text : string) :
  clipCaptions !! index = Some address ->
  store !! address = Some seg ->
  let opened := CaptionObjects.openModal (Some clipCaptions) in
  let editing := CaptionObjects.setEditingText text
                   (CaptionObjects.startEditing index (seg_text seg) opened) in
  exists store',
    CaptionObjects.saveEdit store editing = Some (store', opened) /\
    forall j a, clipCaptions !! j = Some a ->
      CaptionObjects.segments store' clipCaptions !! j
      = Some (if decide (a = address)
              then Some (CaptionObjects.withText text seg) else store !! a).
Proof.
  intros Hindex Hseg opened editing.
  exists (alter (CaptionObjects.withText text) address store). split.
  - unfold CaptionObjects.saveEdit. subst editing opened. simpl. now rewrite Hindex.
  - intros j a Hj. unfold CaptionObjects.segments.
    rewrite lookup_map, Hj. simpl. f_equal.
    unfold CaptionObjects.Store in *.
    rewrite lookup_alter. destruct (decide (address = a)) as [->|Hne].
    + rewrite decide_True by reflexivity. now rewrite Hseg.
    + rewrite decide_False by congruence. reflexivity.
Qed.

Lemma saveEdit_writes_through_witness :
  exists store',
    CaptionObjects.saveEdit segmentStore
      (CaptionObjects.setEditingText "Watch this"
         (CaptionObjects.startEditing 1 "You won't believe what happens next"
            (CaptionObjects.openModal (Some clipCaptionArray))))
    = Some (store', CaptionObjects.openModal (Some clipCaptionArray)) /\
    Forall (fun ja =>
              CaptionObjects.segments store' clipCaptionArray !! ja.1
              = Some (if decide (ja.2 = 1%nat)
                      then Some {| seg_start := 5 # 2; seg_end := 5;
                                   seg_text := "Watch this"; seg_confidence := None |}
                      else segmentStore !! ja.2))
           [(0%nat, 0%nat); (1%nat, 1%nat)].
Proof.
  destruct (saveEdit_writes_through segmentStore clipCaptionArray 1 1
              {| seg_start := 5 # 2; seg_end := 5;
                 seg_text := "You won't believe what happens next";
                 seg_confidence := None |}
              "Watch this" eq_refl eq_refl) as (store' & Hsave & Hread).
  exists store'. split; [exact Hsave|].
  constructor; [exact (Hread 0%nat 0%nat eq_refl)|].
  constructor; [exact (Hread 1%nat 1%nat eq_refl)|]. constructor.
Defined.


(** ** The timeline as rendered *)

Lemma Math_min_attained xs : forall x, exists y, In y (x :: xs) /\ JS.Math_min x xs == y.
Proof.
  unfold JS.Math_min. induction xs as [|a xs IH]; intros x.
  - exists x. split; [now left | reflexivity].
  - simpl fold_left. destruct (IH (Qmin x a)) as (y & [<- | Hy] & Heq).
    + destruct (Q.min_dec x a) as [Hm | Hm].
      * exists x. split; [now left|]. now rewrite Heq.
      * exists a. split; [right; now left|]. now rewrite Heq.
    + exists y. split; [right; now right | exact Heq].
Qed.

Lemma minStart_spec (clips : list EditingClip) (clip : EditingClip) :
  clip ∈ clips ->
  exists m, minStart clips = Some m /\
    (forall c, c ∈ clips -> m <= editedStart c) /\
    exists first, first ∈ clips /\ m == editedStart first.
Proof.
  intros Hin. unfold minStart.
  destruct clips as [|c0 clips]; [now apply elem_of_nil in Hin|].
  simpl map. eexists. split; [reflexivity|]. split.
  - intros c Hc. apply elem_of_cons in Hc as [-> | Hc].
    + apply Math_min_le_init.
    + apply Math_min_le_elem. apply in_map. now apply list_elem_of_In.
  - destruct (Math_min_attained (map editedStart clips) (editedStart c0))
      as (y & [<- | Hy] & Heq).
    + exists c0. split; [apply elem_of_cons; now left | exact Heq].
    + apply in_map_iff in Hy as (c & <- & Hc).
      exists c. split; [apply elem_of_cons; right; now apply list_elem_of_In | exact Heq].
Qed.

Lemma percent_mono (d x y : Q) : 0 < d -> x <= y -> x / d * 100 <= y / d * 100.
Proof.
  intros Hd Hxy. apply Qmult_le_compat_r; [|discriminate].
  unfold Qdiv. apply Qmult_le_compat_r; [exact Hxy|].
  apply Qlt_le_weak. now apply Qinv_lt_0_compat.
Qed.

Lemma percent_zero (d : Q) : 0 / d * 100 == 0.
Proof. unfold Qdiv. ring. Qed.

Lemma percent_add (d x y : Q) : 0 < d -> x / d * 100 + y / d * 100 == (x + y) / d * 100.
Proof. intros Hd. field. lra. Qed.

(** X18.  The clip boxes are placed relative to the earliest clip, not to
    time 0, and are never narrower than 40 pixels.  On a timeline of
    positive duration every clip gets a box whose [left] is not negative
    and whose [minWidth] is 40 pixels, and some clip (one with the least
    [editedStart]) has its box at [left] 0.  (So the right edge of a box is
    not [left + width] when that width is under 40 pixels, and may lie
    beyond the end of the timeline.) *)
Theorem clip_boxes_relative_to_earliest (s : State) (clip : EditingClip) :
  0 < videoDuration s ->
  clip ∈ editingClips s ->
  exists style,
    clipBoxStyle s clip = Some style /\
    0 <= box_left style /\
    box_minWidth style = 40 /\
    exists first style0,
      first ∈ editingClips s /\
      clipBoxStyle s first = Some style0 /\ box_left style0 == 0.
Proof.
  intros Hd Hin.
  destruct (minStart_spec _ _ Hin) as (m & Hm & Hlow & first & Hfirst & Hatt).
  unfold clipBoxStyle. rewrite Hm. cbv zeta.
  eexists. split; [reflexivity|]. cbn [box_left box_minWidth]. split; [|split].
  - rewrite <- (percent_zero (videoDuration s)).
    apply percent_mono; [exact Hd|]. specialize (Hlow _ Hin). lra.
  - reflexivity.
  - exists first. eexists. split; [exact Hfirst|]. split; [reflexivity|].
    cbn [box_left]. rewrite <- (percent_zero (videoDuration s)).
    assert (H : editedStart first - m == 0) by lra. now rewrite H.
Qed.

Lemma clip_boxes_relative_to_earliest_witness :
  exists style,
    clipBoxStyle offsetPage (toEditing (processClip "0.5" (rawClip 2 40 50)))
    = Some style /\
    0 <= box_left style /\
    box_minWidth style = 40 /\
    exists first style0,
      first ∈ editingClips offsetPage /\
      clipBoxStyle offsetPage first = Some style0 /\ box_left style0 == 0.
Proof.
  apply (clip_boxes_relative_to_earliest offsetPage
           (toEditing (processClip "0.5" (rawClip 2 40 50)))).
  - vm_compute. reflexivity.
  - apply (list_elem_of_lookup_2 _ 1%nat). vm_compute. reflexivity.
Defined.

(** X19.  After a click that is accepted, the playhead is not drawn where
    the click was made unless the earliest clip starts at 0: the cursor is
    set to the clicked share of the timeline duration, and the playhead is
    drawn left of the clicked point by the share [minStart / videoDuration]
    of the timeline. *)
Theorem click_playhead_offset (s : State) (rect : Rect) (video : VideoElement)
    (clientX m : Q) :
  (isDragging s).1 = None ->
  isPreventingTimelineClick s = false ->
  0 < rect_width rect ->
  0 < videoDuration s ->
  minStart (editingClips s) = Some m ->
  exists p,
    playheadLeft (handleTimelineClick s (Some rect) (Some video) clientX).1 = Some p /\
    p == (clientX - rect_left rect) / rect_width rect * 100
         - m / videoDuration s * 100.
Proof.
  intros Hdrag Hguard Hw Hd Hm.
  unfold handleTimelineClick. rewrite Hdrag, Hguard. simpl.
  unfold playheadLeft. simpl. rewrite Hm.
  eexists. split; [reflexivity|]. field. split; lra.
Qed.

Lemma click_playhead_offset_witness :
  exists p,
    playheadLeft (handleTimelineClick offsetPage
                    (Some {| rect_left := 0; rect_width := 1200 |})
                    (Some {| video_duration := 10; video_currentTime := 0 |}) 600).1
    = Some p /\
    p == (600 - 0) / 1200 * 100 - 30 / 120 * 100.
Proof.
  apply (click_playhead_offset offsetPage {| rect_left := 0; rect_width := 1200 |}
           {| video_duration := 10; video_currentTime := 0 |} 600 30).
  - reflexivity.
  - reflexivity.
  - reflexivity.
  - vm_compute. reflexivity.
  - vm_compute. reflexivity.
Defined.

(** X20.  During playback the playhead stays on the selected clip.  When
    the preview reports a position between 0 and the edited length of the
    selected clip, [onTimeUpdate] puts the cursor at [editedStart] plus that
    position, and the playhead is drawn between the left and the right edge
    of the selected clip's box. *)
Theorem playhead_within_selected_box (s : State) (video : VideoElement)
    (clip : EditingClip) :
  0 < videoDuration s ->
  editingClips s !! currentClipIndex s = Some clip ->
  0 <= video_currentTime video <= editedEnd clip - editedStart clip ->
  exists left width p,
    clipBoxStyle s clip
    = Some {| box_left := left; box_width := width; box_minWidth := 40 |} /\
    playheadLeft (onTimeUpdate s video) = Some p /\
    left <= p <= left + width.
Proof.
  intros Hd Hclip [Hlo Hhi].
  assert (Hin : clip ∈ editingClips s) by (eapply list_elem_of_lookup_2; eassumption).
  destruct (minStart_spec _ _ Hin) as (m & Hm & _).
  unfold clipBoxStyle, onTimeUpdate, playheadLeft. rewrite Hclip. simpl. rewrite Hm.
  eexists _, _, _. split; [reflexivity|]. split; [reflexivity|]. split.
  - apply percent_mono; [exact Hd | lra].
  - rewrite percent_add by exact Hd. apply percent_mono; [exact Hd | lra].
Qed.

Lemma playhead_within_selected_box_witness :
  exists left width p,
    clipBoxStyle offsetPage (toEditing (processClip "0.5" (rawClip 2 40 50)))
    = Some {| box_left := left; box_width := width; box_minWidth := 40 |} /\
    playheadLeft (onTimeUpdate offsetPage {| video_duration := 10; video_currentTime := 4 |})
    = Some p /\
    left <= p <= left + width.
Proof.
  apply (playhead_within_selected_box offsetPage
           {| video_duration := 10; video_currentTime := 4 |}
           (toEditing (processClip "0.5" (rawClip 2 40 50)))).
  - vm_compute. reflexivity.
  - vm_compute. reflexivity.
  - vm_compute. split; discriminate.
Defined.

(** ** Time labels *)

Lemma Qfloor_unique (x : Q) (z : Z) :
  inject_Z z <= x -> x < inject_Z z + 1 -> Qfloor x = z.
Proof.
  intros Hlo Hhi. pose proof (Qfloor_le x) as Hle. pose proof (Qlt_floor x) as Hlt.
  rewrite inject_Z_plus in Hlt. change (inject_Z 1) with 1 in Hlt.
  assert (H1 : inject_Z (Qfloor x) < inject_Z (z + 1)).
  { rewrite inject_Z_plus. change (inject_Z 1) with 1. lra. }
  assert (H2 : inject_Z z < inject_Z (Qfloor x + 1)).
  { rewrite inject_Z_plus. change (inject_Z 1) with 1. lra. }
  rewrite <- Zlt_Qlt in H1, H2. lia.
Qed.

Lemma rem_nonneg (x y : Q) :
  0 <= x / y -> JS.rem x y = x - y * inject_Z (Qfloor (x / y)).
Proof.
  intros H. unfold JS.rem, JS.trunc.
  apply Qle_bool_iff in H. now rewrite H.
Qed.

(** The integer part of a rounded quotient: rounding does not reach the
    next integer from [1/65536] below it, for an integer under [2^32]. *)
Lemma floor_rounded (x : Q) (q : Z) :
  (0 <= q < 2 ^ 32)%Z ->
  inject_Z q <= x -> x <= inject_Z q + 1 - (1 # 65536) ->
  Qfloor (JS.double x) = q.
Proof.
  change (2 ^ 32)%Z with 4294967296%Z. intros Hq Hlo Hhi.
  apply Qfloor_unique.
  - apply double_ge; [|exact Hlo].
    apply isDouble_Z. change (2 ^ 53)%Z with 9007199254740992%Z. lia.
  - apply Qle_lt_trans with (inject_Z q + 1 - (1 # 65536)); [|lra].
    apply double_le; [|exact Hhi].
    apply (isDouble_scaled _ ((q + 1) * 65536 - 1) (-16)).
    + change (2 ^ 53)%Z with 9007199254740992%Z. lia.
    + lia.
    + change (2 ^ (-16)) with (1 # 65536).
      unfold Z.sub. rewrite inject_Z_plus, inject_Z_mult, inject_Z_plus, inject_Z_opp.
      change (inject_Z 1) with 1. change (inject_Z 65536) with 65536. field.
Qed.

(** X21.  [formatTime] shows whole minutes and whole seconds and drops the
    fraction of a second: for [m] minutes, [0 <= m < 2^32], and [r]
    seconds with [0 <= r <= 59.999], the label of [60 * m + r] is the
    minutes and the integer part of [r], each padded to two digits.  (The
    minutes are the integer part of a rounded quotient; the bounds keep the
    rounding from reaching the next minute and the numeral exact.) *)
Theorem formatTime_minutes_seconds (m : Z) (r : Q) :
  (0 <= m < 2 ^ 32)%Z -> 0 <= r <= 59999 # 1000 ->
  formatTime (60 * inject_Z m + r)
  = (JS.padStart2 (JS.toString m) ++ ":" ++ JS.padStart2 (JS.toString (Qfloor r)))%string.
Proof.
  intros Hm [Hlo Hhi].
  assert (Hm' : 0 <= inject_Z m) by (change 0 with (inject_Z 0); rewrite <- Zle_Qle; lia).
  assert (Hmins : Qfloor (JS.div (60 * inject_Z m + r) 60) = m).
  { unfold JS.div. apply floor_rounded; [exact Hm | |].
    - apply Qle_shift_div_l; lra.
    - apply Qle_shift_div_r; lra. }
  assert (Hquot : Qfloor ((60 * inject_Z m + r) / 60) = m).
  { apply Qfloor_unique.
    - apply Qle_shift_div_l; lra.
    - apply Qlt_shift_div_r; lra. }
  assert (Hpos : 0 <= (60 * inject_Z m + r) / 60).
  { apply Qle_shift_div_l; lra. }
  unfold formatTime, JS.Math_floor. rewrite (rem_nonneg _ _ Hpos), Hmins, Hquot.
  assert (Hsecs : Qfloor (60 * inject_Z m + r - 60 * inject_Z m) = Qfloor r).
  { apply Qfloor_comp. ring. }
  now rewrite Hsecs.
Qed.

Lemma formatTime_minutes_seconds_witness :
  formatTime (60 * inject_Z 2 + (11 # 2)) = "02:05"%string.
Proof.
  refine (formatTime_minutes_seconds 2 (11 # 2) _ _).
  - split; [discriminate | reflexivity].
  - split; discriminate.
Defined.

(** X22.  [formatDuration] of a whole number [n] of seconds,
    [0 <= n < 2^32]: below a minute it is [n] followed by "s"; from a
    minute on it is the minutes, unpadded, and the remaining seconds padded
    to two digits. *)
Theorem formatDuration_whole_seconds (n : Z) :
  (0 <= n < 2 ^ 32)%Z ->
  formatDuration (inject_Z n)
  = if (n <? 60)%Z then (JS.toString n ++ "s")%string
    else (JS.toString (n / 60) ++ ":" ++ JS.padStart2 (JS.toString (n mod 60)))%string.
Proof.
  intros Hn. pose proof Hn as Hn32. change (2 ^ 32)%Z with 4294967296%Z in Hn.
  assert (Hn' : 0 <= inject_Z n) by (change 0 with (inject_Z 0); rewrite <- Zle_Qle; lia).
  unfold formatDuration, JS.Math_round, JS.Math_floor.
  assert (Hmul : JS.mul (inject_Z n) 10 == inject_Z (10 * n)).
  { unfold JS.mul.
    assert (Hx : inject_Z n * 10 == inject_Z (10 * n) * 2 ^ 0).
    { rewrite inject_Z_mult. change (inject_Z 10) with 10. change (2 ^ 0) with 1. ring. }
    pose proof (isDouble_scaled _ (10 * n) 0
                  ltac:(change (2 ^ 53)%Z with 9007199254740992%Z; lia) ltac:(lia) Hx) as Hdb.
    unfold JS.isDouble in Hdb. change (2 ^ 0) with 1 in Hx. lra. }
  assert (Hround : Qfloor (JS.mul (inject_Z n) 10 + (1 # 2)) = (10 * n)%Z).
  { apply Qfloor_unique; lra. }
  rewrite Hround.
  set (R := JS.div (inject_Z (10 * n)) 10).
  assert (HR : R == inject_Z n).
  { subst R. unfold JS.div.
    assert (Hx : inject_Z (10 * n) / 10 == inject_Z n * 2 ^ 0).
    { rewrite inject_Z_mult. change (inject_Z 10) with 10. change (2 ^ 0) with 1. field. }
    pose proof (isDouble_scaled _ n 0
                  ltac:(change (2 ^ 53)%Z with 9007199254740992%Z; lia) ltac:(lia) Hx) as Hdb.
    unfold JS.isDouble in Hdb. change (2 ^ 0) with 1 in Hx. lra. }
  assert (Hdm : inject_Z n == 60 * inject_Z (n / 60) + inject_Z (n mod 60)).
  { rewrite (Z.div_mod n 60) at 1 by lia.
    rewrite inject_Z_plus, inject_Z_mult. reflexivity. }
  assert (Hmod : 0 <= inject_Z (n mod 60) <= 59).
  { pose proof (Z.mod_pos_bound n 60 ltac:(lia)) as Hb.
    split; [change 0 with (inject_Z 0) | change 59 with (inject_Z 59)];
      rewrite <- Zle_Qle; lia. }
  assert (Hquot : Qfloor (R / 60) = (n / 60)%Z).
  { rewrite Zdiv_Qdiv. apply Qfloor_comp. rewrite HR. reflexivity. }
  assert (Hmins : Qfloor (JS.div R 60) = (n / 60)%Z).
  { unfold JS.div. apply floor_rounded.
    - change (2 ^ 32)%Z with 4294967296%Z. split.
      + apply Z.div_pos; lia.
      + apply Z.div_lt_upper_bound; lia.
    - apply Qle_shift_div_l; lra.
    - apply Qle_shift_div_r; lra. }
  assert (Hpos : 0 <= R / 60) by (apply Qle_shift_div_l; lra).
  rewrite (rem_nonneg _ _ Hpos), Hmins, Hquot.
  set (S := R - 60 * inject_Z (n / 60)).
  assert (HS : S == inject_Z (n mod 60)) by (subst S; lra).
  assert (Hfloor : Qfloor S = (n mod 60)%Z).
  { rewrite <- (Qfloor_Z (n mod 60)). now apply Qfloor_comp. }
  rewrite Hfloor.
  destruct (Z.ltb_spec n 60) as [Hlt | Hge].
  - rewrite Z.div_small by lia. simpl (0 <? 0)%Z. cbv iota.
    rewrite Z.mod_small in * by lia.
    assert (Hpos1 : 0 <= S / 1) by (apply Qle_shift_div_l; lra).
    rewrite (rem_nonneg _ _ Hpos1).
    assert (Hf1 : Qfloor (S / 1) = n).
    { rewrite <- (Qfloor_Z n). apply Qfloor_comp. rewrite HS. field. }
    rewrite Hf1.
    assert (Hz : Qeq_bool (S - 1 * inject_Z n) 0 = true).
    { apply Qeq_bool_iff. lra. }
    now rewrite Hz.
  - assert (Hdiv : (0 < n / 60)%Z) by (apply Z.div_str_pos; lia).
    apply Z.ltb_lt in Hdiv. now rewrite Hdiv.
Qed.

Lemma formatDuration_whole_seconds_witness :
  formatDuration (inject_Z 75) = "1:15"%string /\
  formatDuration (inject_Z 8) = "8s"%string.
Proof.
  split.
  - refine (formatDuration_whole_seconds 75 _). split; [discriminate | reflexivity].
  - refine (formatDuration_whole_seconds 8 _). split; [discriminate | reflexivity].
Defined.

(** ** What a drag never touches *)

Lemma map_insert {A B} (f : A -> B) (l : list A) i x :
  map f (<[i := x]> l) = <[i := f x]> (map f l).
Proof.
  revert i. induction l as [|a l IH]; intros [|i]; simpl; try reflexivity.
  now rewrite IH.
Qed.

Lemma draggedClip_erased dt lo hi request clip a b :
  withEdited a b (draggedClip dt lo hi request clip) = withEdited a b clip.
Proof. now destruct dt. Qed.

Lemma handleMouseMove_erased k ref x l' :
  handleMouseMove k ref x = Some l' ->
  map (withEdited 0 0) l' = map (withEdited 0 0) (cl_editingClips k).
Proof.
  intros H. apply handleMouseMove_Some in H as (w & clip & _ & Hclip & ->).
  rewrite map_insert, draggedClip_erased.
  apply list_insert_id. now rewrite lookup_map, Hclip.
Qed.

Lemma run_erased ref p es :
  listeners p = [] ->
  map (withEdited 0 0) (editingClips (state (run ref p es)))
  = map (withEdited 0 0) (editingClips (state p)).
Proof.
  intros Hl.
  set (P := fun (_ : Q) (l : list EditingClip) =>
              map (withEdited 0 0) l = map (withEdited 0 0) (editingClips (state p))).
  assert (Hinv : PageInv P (run ref p es)).
  { apply run_PageInv.
    - intros k r x l' Hm Hk. unfold P in *.
      now rewrite (handleMouseMove_erased _ _ _ _ Hm).
    - split; [reflexivity|]. rewrite Hl. apply Forall_nil_2. }
  destruct Hinv as [H _]. exact H.
Qed.

Lemma deliverMove_fold_job ref x ks : forall s,
  let s' := fold_left (deliverMove ref x) ks s in
  jobId s' = jobId s /\ isFinalizingClips s' = isFinalizingClips s /\
  appState s' = appState s.
Proof.
  induction ks as [|k ks IH]; intros s; simpl; [auto|].
  destruct (IH (deliverMove ref x s k)) as (H1 & H2 & H3). simpl in H1, H2, H3.
  rewrite H1, H2, H3.
  unfold deliverMove. now destruct (handleMouseMove k ref x).
Qed.

Lemma dispatch_keeps_job ref p e :
  let s' := state (dispatch ref p e) in
  jobId s' = jobId (state p) /\ isFinalizingClips s' = isFinalizingClips (state p) /\
  appState s' = appState (state p).
Proof.
  destruct e as [x dt i | x | | | i]; simpl.
  - unfold handleTimelineMouseDown. destruct ref as [w|]; [|auto].
    destruct (negb (i =? currentClipIndex (state p))%nat); [auto|]. simpl.
    destruct (editingClips (state p) !! i) as [c|]; [destruct dt|]; auto.
  - apply deliverMove_fold_job.
  - destruct (listeners p); auto.
  - auto.
  - unfold navigateToClip.
    destruct (editingClips (state p) !! i); [destruct (bool_decide _)|]; auto.
Qed.

Lemma run_keeps_job ref es : forall p,
  let s' := state (run ref p es) in
  jobId s' = jobId (state p) /\ isFinalizingClips s' = isFinalizingClips (state p) /\
  appState s' = appState (state p).
Proof.
  induction es as [|e es IH]; intros p; [simpl; auto|].
  cbv zeta. rewrite run_cons.
  destruct (IH (dispatch ref p e)) as (H1 & H2 & H3). cbv zeta in H1, H2, H3.
  rewrite H1, H2, H3. apply dispatch_keeps_job.
Qed.

(** X23.  Drag events change nothing but [editedStart] and [editedEnd].
    After any sequence of presses, moves, releases, timeouts and
    selections, starting with no drag in progress, the collection has the
    same clips in the same order, each equal to what it was up to its two
    edited bounds (identity, labels, upstream and original times, path and
    captions are untouched), and the job id, the application state and the
    finalizing flag are what they were. *)
Theorem drags_change_only_edited_bounds (ref : option Q) (p : Page) (es : list DragEvent) :
  listeners p = [] ->
  let s' := state (run ref p es) in
  map (withEdited 0 0) (editingClips s') = map (withEdited 0 0) (editingClips (state p)) /\
  jobId s' = jobId (state p) /\ isFinalizingClips s' = isFinalizingClips (state p) /\
  appState s' = appState (state p).
Proof.
  intros Hl. split; [now apply run_erased | apply run_keeps_job].
Qed.

Lemma drags_change_only_edited_bounds_witness :
  let p := idle (ingestLoaded adjacentClips) in
  let s' := state (run (Some 1200) p
                     [MouseDown 100 DragEnd 0; MouseMove 40; MouseMove 70; MouseUp]) in
  map (withEdited 0 0) (editingClips s') = map (withEdited 0 0) (editingClips (state p)) /\
  jobId s' = jobId (state p) /\ isFinalizingClips s' = isFinalizingClips (state p) /\
  appState s' = appState (state p).
Proof.
  apply (drags_change_only_edited_bounds (Some 1200) (idle (ingestLoaded adjacentClips))).
  reflexivity.
Defined.

(** X24.  What Finalize sends after editing.  Starting with no drag in
    progress, a job id and no finalize call in flight, after any sequence
    of drag events [handleFinalize] reaches its API call, with one record
    per clip, in timeline order; the record of a clip carries the id, the
    upstream [start_time] and [end_time], the original bounds and the path
    the clip had before the events, whether it has captions, and as
    [editedStart] and [editedEnd] the bounds the page now shows. *)
Theorem finalize_sends_edited_bounds (ref : option Q) (p : Page) (es : list DragEvent) :
  listeners p = [] ->
  jobId (state p) <> ""%string ->
  isFinalizingClips (state p) = false ->
  exists s' payload,
    handleFinalize_begin (state (run ref p es)) = (s', Some payload) /\
    length payload = length (editingClips (state p)) /\
    forall i c0, editingClips (state p) !! i = Some c0 ->
      exists c f,
        editingClips (state (run ref p es)) !! i = Some c /\
        payload !! i = Some f /\
        id (fc_clip f) = id c0 /\
        start_time (fc_clip f) = start_time c0 /\
        end_time (fc_clip f) = end_time c0 /\
        originalStart (fc_clip f) = originalStart c0 /\
        originalEnd (fc_clip f) = originalEnd c0 /\
        path (fc_clip f) = path c0 /\
        hasCaptionedVersion f = hasCaptions c0 /\
        editedStart (fc_clip f) = editedStart c /\
        editedEnd (fc_clip f) = editedEnd c.
Proof.
  intros Hl Hjob Hfin.
  destruct (run_keeps_job ref es p) as (Hj & Hf & _).
  pose proof (run_erased ref p es Hl) as Herased.
  unfold handleFinalize_begin. rewrite Hj, Hf, Hfin.
  apply String.eqb_neq in Hjob. rewrite Hjob.
  eexists _, _. split; [reflexivity|]. split.
  - rewrite length_map. apply (f_equal (@length _)) in Herased.
    now rewrite !length_map in Herased.
  - intros i c0 Hc0.
    assert (Hi : map (withEdited 0 0) (editingClips (state (run ref p es))) !! i
                 = Some (withEdited 0 0 c0)).
    { now rewrite Herased, lookup_map, Hc0. }
    rewrite lookup_map in Hi.
    destruct (editingClips (state (run ref p es)) !! i) as [c|] eqn:Hc; [|discriminate].
    assert (Hsame : withEdited 0 0 c = withEdited 0 0 c0) by (simpl in Hi; congruence).
    exists c, (formatEditingClip c). split; [reflexivity|].
    split; [now rewrite lookup_map, Hc|]. simpl.
    repeat split.
    + exact (f_equal id Hsame).
    + exact (f_equal start_time Hsame).
    + exact (f_equal end_time Hsame).
    + exact (f_equal originalStart Hsame).
    + exact (f_equal originalEnd Hsame).
    + exact (f_equal path Hsame).
    + unfold hasCaptions. now rewrite (f_equal captions Hsame : captions c = captions c0).
Qed.

Lemma finalize_sends_edited_bounds_witness :
  exists s' payload,
    handleFinalize_begin
      (state (run (Some 1200) (idle (ingestLoaded adjacentClips))
                [MouseDown 100 DragEnd 0; MouseMove 40; MouseUp]))
    = (s', Some payload) /\
    length payload = 2%nat.
Proof.
  destruct (finalize_sends_edited_bounds (Some 1200) (idle (ingestLoaded adjacentClips))
              [MouseDown 100 DragEnd 0; MouseMove 40; MouseUp])
    as (s' & payload & Hsent & Hlen & _).
  - reflexivity.
  - vm_compute. discriminate.
  - reflexivity.
  - exists s', payload. split; [exact Hsent | exact Hlen].
Defined.
